(** * UltraRF mesh routing engine (mesh.py)

    A shallow embedding of [MeshNetwork] from mesh.py: the routing table,
    the node map and the neighbour set, the announcement processor, the
    metric model and the two stale-state sweeps of the maintenance loop.

    Modelling conventions.
    - Python [float]s (signal strengths, timestamps, intervals) are
      rationals [Q]. The first layer computes with them exactly, literals
      such as [0.8] being the rationals they denote; it serves the
      properties that do not depend on rounding (orders, invariants,
      frames, sweeps). The module [Machine] repeats the metric model and
      the announcement loop over an abstract machine arithmetic in which
      the product is rounded and the power can raise [OverflowError]; it
      serves the properties that speak of the class computed or of how a
      call ends.
    - Python [int]s are [Z].
    - The three dictionaries/sets of the engine are [gmap string _] and
      [gset string].
    - [time.time()] is an input: every operation takes the clock readings
      it performs as arguments, in the order the code performs them.
    - An operation holds [self.lock] for its whole body, so an operation
      is one atomic state transformer.
    - Exceptions are explicit: an operation that can raise returns an
      [outcome] together with the state reached when it stopped (Python
      mutates the engine in place, so effects done before the exception
      stay). *)

From Stdlib Require Import ZArith QArith Qpower.
From stdpp Require Import gmap strings list fin_maps pretty.

Local Open Scope Z_scope.

(** ** Rational comparisons as decidable propositions *)

#[global] Instance Qlt_decision (x y : Q) : Decision (x < y)%Q.
Proof.
  destruct (Qlt_le_dec x y) as [H|H]; [left; exact H|right].
  apply Qle_not_lt; exact H.
Defined.

#[global] Instance Qle_decision (x y : Q) : Decision (x <= y)%Q.
Proof.
  destruct (Qlt_le_dec y x) as [H|H]; [right|left; exact H].
  apply Qlt_not_le; exact H.
Defined.

(** ** Data model *)

(** [class RouteMetric(Enum)] with its [.value]. *)
Inductive RouteMetric : Set :=
  | EXCELLENT
  | GOOD
  | FAIR
  | POOR
  | UNREACHABLE.

Definition value (m : RouteMetric) : Z :=
  match m with
  | EXCELLENT => 1
  | GOOD => 2
  | FAIR => 3
  | POOR => 4
  | UNREACHABLE => 5
  end.

#[global] Instance RouteMetric_eq_dec : EqDecision RouteMetric.
Proof. solve_decision. Defined.

(** [@dataclass RouteInfo]. *)
Record RouteInfo : Type := mkRouteInfo {
  destination : string;
  next_hop : string;
  hop_count : Z;
  metric : RouteMetric;
  last_updated : Q;
  bandwidth_estimate : Q
}.

(** [@dataclass MeshNode]; the last five fields have defaults
    [0], [0.0], [None], [False] and a fresh empty dict. *)
Record MeshNode : Type := mkMeshNode {
  callsign : string;
  node_id : string;
  last_seen : Q;
  node_hop_count : Z;
  signal_strength : Q;
  battery_level : option Q;
  is_gateway : bool;
  routes : gmap string RouteInfo
}.

(** One element of the [routes: List[Dict]] argument of
    [process_route_announcement]: the three keys the code reads, each of
    which may be absent from the dict. *)
Record RouteData : Type := mkRouteData {
  rd_destination : option string;
  rd_hop_count : option Z;
  rd_signal_strength : option Q
}.

(** The attributes of a [MeshNetwork] instance (the lock and the thread
    handle have no content in a sequential model). *)
Record MeshNetwork : Type := mkMeshNetwork {
  local_callsign : string;
  local_node_id : string;
  nodes : gmap string MeshNode;
  routing_table : gmap string RouteInfo;
  neighbor_nodes : gset string;
  route_update_interval : Q;
  node_timeout : Q;
  max_hop_count : Z;
  running : bool
}.

Definition set_nodes (f : gmap string MeshNode -> gmap string MeshNode)
    (self : MeshNetwork) : MeshNetwork :=
  mkMeshNetwork (local_callsign self) (local_node_id self)
    (f (nodes self)) (routing_table self) (neighbor_nodes self)
    (route_update_interval self) (node_timeout self) (max_hop_count self)
    (running self).

Definition set_routing_table
    (f : gmap string RouteInfo -> gmap string RouteInfo)
    (self : MeshNetwork) : MeshNetwork :=
  mkMeshNetwork (local_callsign self) (local_node_id self)
    (nodes self) (f (routing_table self)) (neighbor_nodes self)
    (route_update_interval self) (node_timeout self) (max_hop_count self)
    (running self).

Definition set_neighbor_nodes (f : gset string -> gset string)
    (self : MeshNetwork) : MeshNetwork :=
  mkMeshNetwork (local_callsign self) (local_node_id self)
    (nodes self) (routing_table self) (f (neighbor_nodes self))
    (route_update_interval self) (node_timeout self) (max_hop_count self)
    (running self).

(** [int(x)] on a float: truncation towards zero. *)
Definition int_of_float (x : Q) : Z := Z.quot (Qnum x) (Z.pos (Qden x)).

(** [MeshNetwork.__init__(local_callsign)], with the clock reading [now]. *)
Definition init (callsign0 : string) (now : Q) : MeshNetwork :=
  {| local_callsign := callsign0;
     local_node_id := callsign0 +:+ "-" +:+ pretty (int_of_float now);
     nodes := ∅;
     routing_table := ∅;
     neighbor_nodes := ∅;
     route_update_interval := 30.0%Q;
     node_timeout := 180.0%Q;
     max_hop_count := 5;
     running := false |}.

(** ** Metric model *)

(** [_calculate_metric(signal_strength, hop_count)]. *)
Definition _calculate_metric (signal : Q) (hops : Z) : RouteMetric :=
  let adjusted_strength := (signal * (0.8 ^ (hops - 1)))%Q in
  if decide (0.8 < adjusted_strength)%Q then EXCELLENT
  else if decide (0.6 < adjusted_strength)%Q then GOOD
  else if decide (0.4 < adjusted_strength)%Q then FAIR
  else if decide (0.2 < adjusted_strength)%Q then POOR
  else UNREACHABLE.

(** Python's two-argument [max(a, b)]: [b] when [b > a], else [a]. *)
Definition py_max (a b : Q) : Q := if decide (a < b)%Q then b else a.

(** [_estimate_bandwidth(signal_strength)]. *)
Definition _estimate_bandwidth (signal : Q) : Q :=
  py_max 0.1%Q (signal * 50.0)%Q.

(** [_is_better_route(new_metric, new_hop_count, existing_route)]. *)
Definition _is_better_route (new_metric : RouteMetric) (new_hop_count : Z)
    (existing_route : RouteInfo) : bool :=
  if bool_decide (value new_metric < value (metric existing_route)) then true
  else if bool_decide (value new_metric = value (metric existing_route))
          && bool_decide (new_hop_count < hop_count existing_route)
  then true
  else false.

(** ** Operations that cannot raise *)

(** [add_neighbor(callsign, node_id, signal_strength)]. The body reads the
    clock twice: [t_seen] for the node, [t_route] for the direct route. *)
Definition add_neighbor (callsign0 node_id0 : string) (signal : Q)
    (t_seen t_route : Q) (self : MeshNetwork) : MeshNetwork :=
  let node :=
    {| callsign := callsign0;
       node_id := node_id0;
       last_seen := t_seen;
       node_hop_count := 1;
       signal_strength := signal;
       battery_level := None;
       is_gateway := false;
       routes := ∅ |} in
  let self := set_nodes <[node_id0 := node]> self in
  let self := set_neighbor_nodes (fun s => s ∪ {[node_id0]}) self in
  let route :=
    {| destination := node_id0;
       next_hop := node_id0;
       hop_count := 1;
       metric := _calculate_metric signal 1;
       last_updated := t_route;
       bandwidth_estimate := _estimate_bandwidth signal |} in
  set_routing_table <[node_id0 := route]> self.

(** [find_route(destination)]. *)
Definition find_route (dest : string) (self : MeshNetwork)
    : option RouteInfo :=
  routing_table self !! dest.

(** [get_next_hop(destination)]. *)
Definition get_next_hop (dest : string) (self : MeshNetwork)
    : option string :=
  match find_route dest self with
  | Some route => Some (next_hop route)
  | None => None
  end.

(** A route is stale for [_cleanup_stale_routes] at clock reading
    [current_time]. *)
Definition route_is_stale (self : MeshNetwork) (current_time : Q)
    (route : RouteInfo) : Prop :=
  (route_update_interval self * 3 < current_time - last_updated route)%Q.

#[global] Instance route_is_stale_dec self t r :
  Decision (route_is_stale self t r).
Proof. unfold route_is_stale; apply _. Defined.

(** [_cleanup_stale_routes()]: first collect the stale destinations while
    iterating over the table, then delete them one by one. *)
Definition _cleanup_stale_routes (current_time : Q) (self : MeshNetwork)
    : MeshNetwork :=
  let stale_routes :=
    (filter (fun kv => route_is_stale self current_time kv.2)
            (map_to_list (routing_table self))).*1 in
  foldl (fun self dest => set_routing_table (delete dest) self)
        self stale_routes.

(** A node is stale for [_cleanup_stale_nodes]. *)
Definition node_is_stale (self : MeshNetwork) (current_time : Q)
    (node : MeshNode) : Prop :=
  (node_timeout self < current_time - last_seen node)%Q.

#[global] Instance node_is_stale_dec self t n :
  Decision (node_is_stale self t n).
Proof. unfold node_is_stale; apply _. Defined.

(** [_cleanup_stale_nodes()]. *)
Definition _cleanup_stale_nodes (current_time : Q) (self : MeshNetwork)
    : MeshNetwork :=
  let stale_nodes :=
    (filter (fun kv => node_is_stale self current_time kv.2)
            (map_to_list (nodes self))).*1 in
  foldl (fun self id =>
           set_neighbor_nodes (fun s => s ∖ {[id]})
             (set_nodes (delete id) self))
        self stale_nodes.

(** One iteration of [_maintenance_loop] without its sleep: the two sweeps
    in order, each with its own clock reading. *)
Definition maintenance_pass (t_routes t_nodes : Q) (self : MeshNetwork)
    : MeshNetwork :=
  _cleanup_stale_nodes t_nodes (_cleanup_stale_routes t_routes self).

(** ** Operations that can raise *)

(** The exceptions the modelled code can raise: [KeyError(key)] from a
    subscript on an announcement dict, and [OverflowError] from the power
    in the metric computation when it is done in machine arithmetic. *)
Inductive PyExc : Set :=
  | KeyError (key : string)
  | OverflowError.

Inductive outcome (A : Type) : Type :=
  | Returned (a : A)
  | Raised (e : PyExc).
Arguments Returned {A} a.
Arguments Raised {A} e.

(** Computations over the engine: the state is threaded through and is
    kept as it is at the point where an exception is raised. *)
Definition M (A : Type) : Type := MeshNetwork -> outcome A * MeshNetwork.

#[global] Instance M_ret : MRet M := fun A a self => (Returned a, self).

#[global] Instance M_bind : MBind M := fun A B k m self =>
  match m self with
  | (Returned a, self') => k a self'
  | (Raised e, self') => (Raised e, self')
  end.

Definition raise {A : Type} (e : PyExc) : M A := fun self => (Raised e, self).

Definition get_self : M MeshNetwork := fun self => (Returned self, self).

Definition modify (f : MeshNetwork -> MeshNetwork) : M unit :=
  fun self => (Returned tt, f self).

(** [d[key]] on an announcement dict. *)
Definition subscript {A : Type} (key : string) (field : option A) : M A :=
  match field with
  | Some v => mret v
  | None => raise (KeyError key)
  end.

(** [for x in xs: body(x)], where [continue] is the body returning. *)
Fixpoint for_each {A : Type} (xs : list A) (body : A -> M unit) : M unit :=
  match xs with
  | [] => mret tt
  | x :: xs' => body x ;; for_each xs' body
  end.

(** The [RouteInfo] built at lines 152-159. *)
Definition new_route (from_node : string) (current_time : Q)
    (dest : string) (hops : Z) (signal : Q) : RouteInfo :=
  {| destination := dest;
     next_hop := from_node;
     hop_count := hops;
     metric := _calculate_metric signal hops;
     last_updated := current_time;
     bandwidth_estimate := _estimate_bandwidth signal |}.

(** The test [existing_route is None or self._is_better_route(...)]. *)
Definition wins (existing_route : option RouteInfo)
    (new_metric : RouteMetric) (new_hop_count : Z) : bool :=
  match existing_route with
  | None => true
  | Some existing => _is_better_route new_metric new_hop_count existing
  end.

(** The body of the loop of [process_route_announcement]. *)
Definition process_one (from_node : string) (current_time : Q)
    (route_data : RouteData) : M unit :=
  dest ← subscript "destination" (rd_destination route_data);
  announced ← subscript "hop_count" (rd_hop_count route_data);
  let hops := announced + 1 in
  self ← get_self;
  if bool_decide (max_hop_count self < hops) then mret tt
  else if bool_decide (dest = local_node_id self) then mret tt
  else
    let signal := default 0.0%Q (rd_signal_strength route_data) in
    let new_metric := _calculate_metric signal hops in
    let existing_route := routing_table self !! dest in
    if wins existing_route new_metric hops then
      modify (set_routing_table
                <[dest := new_route from_node current_time dest hops signal]>)
    else mret tt.

(** [process_route_announcement(from_node, routes)]; [current_time] is the
    single clock reading taken before the loop. *)
Definition process_route_announcement (from_node : string)
    (routes0 : list RouteData) (current_time : Q) : M unit :=
  for_each routes0 (process_one from_node current_time).

(** ** The same loop over machine arithmetic

    The definitions above compute with exact rationals and never fail in
    the metric. The interpreter computes [signal_strength * (0.8 **
    (hop_count - 1))] in binary64: the power raises [OverflowError] when
    its result leaves the float range, the product is rounded, and the
    thresholds are the floats nearest to the decimal literals. The module
    [Machine] repeats the metric model and the announcement loop over an
    arithmetic that is only known through [MachineFloat]; what is proved
    of it holds for every such arithmetic. Finite floats are the rationals
    they denote; a float comparison is the comparison of those rationals;
    [0.0] is the rational 0. *)
Class MachineFloat : Type := {
  (** the float a decimal literal such as [0.8] denotes *)
  fl_lit : Q -> Q;
  (** [x * y] on two floats *)
  fl_mul : Q -> Q -> Q;
  (** [0.8 ** n] for an int [n]; [None] when it raises [OverflowError] *)
  pow_08 : Z -> option Q;
  (** rounding a literal keeps the order of literals *)
  fl_lit_mono : forall q1 q2 : Q, (q1 <= q2)%Q -> (fl_lit q1 <= fl_lit q2)%Q;
  (** the float of a non-negative literal is not negative *)
  fl_lit_nonneg : forall q : Q, (0 <= q)%Q -> (0 <= fl_lit q)%Q;
  (** [0.0 * y] is zero *)
  fl_mul_zero_l : forall y : Q, (fl_mul 0 y == 0)%Q;
  (** for an exponent from 0 up to what converts to a float, [0.8 ** n]
      does not leave the float range *)
  pow_08_returns :
    forall n : Z, 0 <= n < 2 ^ 1023 -> exists p : Q, pow_08 n = Some p
}.

Module Machine.

Section WithFloat.

Context `{MachineFloat}.

(** [_calculate_metric(signal_strength, hop_count)]. *)
Definition _calculate_metric (signal : Q) (hops : Z) : outcome RouteMetric :=
  match pow_08 (hops - 1) with
  | None => Raised OverflowError
  | Some penalty =>
      let adjusted_strength := fl_mul signal penalty in
      Returned
        (if decide (fl_lit 0.8 < adjusted_strength)%Q then EXCELLENT
         else if decide (fl_lit 0.6 < adjusted_strength)%Q then GOOD
         else if decide (fl_lit 0.4 < adjusted_strength)%Q then FAIR
         else if decide (fl_lit 0.2 < adjusted_strength)%Q then POOR
         else UNREACHABLE)
  end.

(** [_estimate_bandwidth(signal_strength)]. *)
Definition _estimate_bandwidth (signal : Q) : Q :=
  py_max (fl_lit 0.1) (fl_mul signal (fl_lit 50.0)).

(** An [outcome] as a computation that returns or raises it. *)
Definition lift {A : Type} (o : outcome A) : M A :=
  match o with
  | Returned a => mret a
  | Raised e => raise e
  end.

(** The body of the loop of [process_route_announcement]: the metric is
    computed, and may raise, before the table is consulted. *)
Definition process_one (from_node : string) (current_time : Q)
    (route_data : RouteData) : M unit :=
  dest ← subscript "destination" (rd_destination route_data);
  announced ← subscript "hop_count" (rd_hop_count route_data);
  let hops := announced + 1 in
  self ← get_self;
  if bool_decide (max_hop_count self < hops) then mret tt
  else if bool_decide (dest = local_node_id self) then mret tt
  else
    let signal := default 0%Q (rd_signal_strength route_data) in
    new_metric ← lift (_calculate_metric signal hops);
    let existing_route := routing_table self !! dest in
    if wins existing_route new_metric hops then
      modify (set_routing_table
                <[dest := {| destination := dest;
                             next_hop := from_node;
                             hop_count := hops;
                             metric := new_metric;
                             last_updated := current_time;
                             bandwidth_estimate :=
                               _estimate_bandwidth signal |}]>)
    else mret tt.

(** [process_route_announcement(from_node, routes)]. *)
Definition process_route_announcement (from_node : string)
    (routes0 : list RouteData) (current_time : Q) : M unit :=
  for_each routes0 (process_one from_node current_time).

End WithFloat.

End Machine.

(** Exact arithmetic cut to the float range: literals and products are
    exact, and [0.8 ** n] overflows where binary64 does, below exponent
    -3180 (1.25 ^ 3181 exceeds the largest float) and from 2 ^ 1023 on
    (kept below what no longer converts to a float). Used to run the
    machine definitions on concrete inputs. *)
Definition exact_float : MachineFloat.
Proof.
  refine {| fl_lit := fun q => q;
            fl_mul := Qmult;
            pow_08 := fun n =>
              if decide (-3180 <= n < 2 ^ 1023)
              then Some (0.8 ^ n)%Q else None |}.
  - intros q1 q2 Hq. exact Hq.
  - intros q Hq. exact Hq.
  - intros y. apply Qmult_0_l.
  - intros n [Hlo Hhi]. exists (0.8 ^ n)%Q.
    destruct (decide (-3180 <= n < 2 ^ 1023)) as [_|Hout]; [reflexivity|].
    exfalso. apply Hout. split; [|exact Hhi].
    apply Z.le_trans with 0; [discriminate|exact Hlo].
Defined.

(** ** Reachable engine states *)

(** The states an engine constructed by [init] can be in after any
    sequence of public mutators and maintenance sweeps; a call that raises
    leaves the state it had reached. *)
Inductive reachable : MeshNetwork -> Prop :=
  | reach_init cs now :
      reachable (init cs now)
  | reach_add_neighbor self cs id signal t_seen t_route :
      reachable self ->
      reachable (add_neighbor cs id signal t_seen t_route self)
  | reach_announcement self from_node routes0 now :
      reachable self ->
      reachable (process_route_announcement from_node routes0 now self).2
  | reach_cleanup_routes self now :
      reachable self ->
      reachable (_cleanup_stale_routes now self)
  | reach_cleanup_nodes self now :
      reachable self ->
      reachable (_cleanup_stale_nodes now self).

(** The routing-table invariant of the specification. *)
Definition route_invariant (self : MeshNetwork) : Prop :=
  forall dest route,
    routing_table self !! dest = Some route ->
    destination route <> local_node_id self /\
    hop_count route <= max_hop_count self.

(** ** Query and export operations *)

(** One dict of the list built by [get_route_announcements]. *)
Record Announcement : Type := mkAnnouncement {
  ann_destination : string;
  ann_hop_count : Z;
  ann_metric : Z;
  ann_signal_strength : Q;
  ann_timestamp : Q
}.

(** The body of the loop of [get_route_announcements] on one item of
    [routing_table.items()]. The loop reads the clock afresh in every
    iteration; [clock dest] is the reading taken while visiting [dest]. *)
Definition announce (self : MeshNetwork) (clock : string -> Q)
    (item : string * RouteInfo) : option Announcement :=
  if decide (route_update_interval self * 2
             < clock item.1 - last_updated item.2)%Q
  then None
  else Some {| ann_destination := item.1;
               ann_hop_count := hop_count item.2;
               ann_metric := value (metric item.2);
               ann_signal_strength := bandwidth_estimate item.2;
               ann_timestamp := last_updated item.2 |}.

(** [get_route_announcements()]. The list is in the enumeration order of
    the map (Python's is insertion order); nothing below depends on it. *)
Definition get_route_announcements (clock : string -> Q)
    (self : MeshNetwork) : list Announcement :=
  omap (announce self clock) (map_to_list (routing_table self)).

(** An announcement dict as the receiving [process_route_announcement]
    sees it: the three keys it reads are all present. *)
Definition as_route_data (ann : Announcement) : RouteData :=
  {| rd_destination := Some (ann_destination ann);
     rd_hop_count := Some (ann_hop_count ann);
     rd_signal_strength := Some (ann_signal_strength ann) |}.

(** [RouteMetric.name]. *)
Definition name (m : RouteMetric) : string :=
  match m with
  | EXCELLENT => "EXCELLENT"
  | GOOD => "GOOD"
  | FAIR => "FAIR"
  | POOR => "POOR"
  | UNREACHABLE => "UNREACHABLE"
  end.

(** The ['network_stats'] dict of [get_mesh_status]. *)
Record NetworkStats : Type := mkNetworkStats {
  total_nodes : Z;
  active_nodes : Z;
  neighbor_count : Z;
  route_count : Z;
  route_metrics : gmap string Z
}.

(** The dict returned by [get_mesh_status]. *)
Record MeshStatus : Type := mkMeshStatus {
  status_callsign : string;
  status_node_id : string;
  network_stats : NetworkStats;
  status_running : bool;
  status_timestamp : Q
}.

(** [route_metrics[metric_name] = route_metrics.get(metric_name, 0) + 1]. *)
Definition count_route (counts : gmap string Z) (route : RouteInfo)
    : gmap string Z :=
  let metric_name := name (metric route) in
  <[metric_name := default 0 (counts !! metric_name) + 1]> counts.

(** A node counted as active by [get_mesh_status]. *)
Definition node_is_active (self : MeshNetwork) (current_time : Q)
    (node : MeshNode) : Prop :=
  (current_time - last_seen node < node_timeout self)%Q.

#[global] Instance node_is_active_dec self t n :
  Decision (node_is_active self t n).
Proof. unfold node_is_active; apply _. Defined.

(** [get_mesh_status()]. *)
Definition get_mesh_status (current_time : Q) (self : MeshNetwork)
    : MeshStatus :=
  let active :=
    length (filter (node_is_active self current_time)
                   (map_to_list (nodes self)).*2) in
  let metrics := foldl count_route ∅ (map_to_list (routing_table self)).*2 in
  {| status_callsign := local_callsign self;
     status_node_id := local_node_id self;
     network_stats :=
       {| total_nodes := Z.of_nat (size (nodes self));
          active_nodes := Z.of_nat active;
          neighbor_count := Z.of_nat (size (neighbor_nodes self));
          route_count := Z.of_nat (size (routing_table self));
          route_metrics := metrics |};
     status_running := running self;
     status_timestamp := current_time |}.

(** [get_mesh_instance(callsign)] on the module global [_mesh_instance]:
    the result is both the new value of the global and the value
    returned. An absent or empty callsign is falsy. *)
Definition get_mesh_instance (callsign0 : option string) (now : Q)
    (_mesh_instance : option MeshNetwork) : option MeshNetwork :=
  match _mesh_instance, callsign0 with
  | None, Some cs => if decide (cs = "") then None else Some (init cs now)
  | instance, _ => instance
  end.

(** ** Orders used to state properties *)

(** [a] is [b] itself or beats it under the order [_is_better_route]
    compares by: class first, hop count second. *)
Definition improves_on (a b : RouteInfo) : Prop :=
  a = b \/
  value (metric a) < value (metric b) \/
  (value (metric a) = value (metric b) /\ hop_count a < hop_count b).

(** Every entry of the table is filed under its own destination. *)
Definition keyed_by_destination (self : MeshNetwork) : Prop :=
  forall dest route,
    routing_table self !! dest = Some route -> destination route = dest.

(** The node map holds exactly the neighbours, each as a one-hop node
    filed under its own id. *)
Definition nodes_are_neighbors (self : MeshNetwork) : Prop :=
  dom (nodes self) = neighbor_nodes self /\
  forall id node,
    nodes self !! id = Some node ->
    node_id node = id /\ node_hop_count node = 1.

(** ** Auxiliary definitions for the announcement processor *)

(** An announcement dict that has both keys the loop body subscripts. *)
Definition well_formed (route_data : RouteData) : Prop :=
  is_Some (rd_destination route_data) /\ is_Some (rd_hop_count route_data).

(** The first key whose subscript fails, in the order the body evaluates
    them. *)
Definition missing_key (route_data : RouteData) : option string :=
  match rd_destination route_data, rd_hop_count route_data with
  | None, _ => Some "destination"
  | Some _, None => Some "hop_count"
  | Some _, Some _ => None
  end.

(** The state after the loop body ran to its end on a well-formed
    announcement. *)
Definition after_one (from_node : string) (current_time : Q)
    (dest : string) (announced : Z) (signal : Q) (self : MeshNetwork)
    : MeshNetwork :=
  let hops := announced + 1 in
  if bool_decide (max_hop_count self < hops) then self
  else if bool_decide (dest = local_node_id self) then self
  else if wins (routing_table self !! dest)
            (_calculate_metric signal hops) hops
  then set_routing_table
         <[dest := new_route from_node current_time dest hops signal]> self
  else self.

(** The better-route rule in the words of the specification: install when
    there is no entry, or the class is strictly lower, or the classes are
    equal and the hop count is strictly lower. *)
Definition better_route_rule (existing : option RouteInfo)
    (new_metric : RouteMetric) (new_hops : Z) : Prop :=
  existing = None \/
  exists e, existing = Some e /\
    (value new_metric < value (metric e) \/
     (value new_metric = value (metric e) /\ new_hops < hop_count e)).

(** ** A batch seen from outside *)

(** The announcements of a batch the loop reaches and completes: those
    before the first one that lacks a key. *)
Fixpoint processed (batch : list RouteData) : list RouteData :=
  match batch with
  | [] => []
  | route_data :: rest =>
      match missing_key route_data with
      | Some _ => []
      | None => route_data :: processed rest
      end
  end.

(** How a call on the batch ends: with the [KeyError] of the first
    announcement that lacks a key, or normally. *)
Fixpoint batch_outcome (batch : list RouteData) : outcome unit :=
  match batch with
  | [] => Returned tt
  | route_data :: rest =>
      match missing_key route_data with
      | Some key => Raised (KeyError key)
      | None => batch_outcome rest
      end
  end.

(** An announcement that would change nothing in this state: it is
    rejected by a guard or it does not win against the current entry. *)
Definition beaten (self : MeshNetwork) (route_data : RouteData) : Prop :=
  forall dest announced,
    rd_destination route_data = Some dest ->
    rd_hop_count route_data = Some announced ->
    max_hop_count self < announced + 1 \/
    dest = local_node_id self \/
    wins (routing_table self !! dest)
      (_calculate_metric (default 0.0%Q (rd_signal_strength route_data))
         (announced + 1))
      (announced + 1) = false.

(** ** Sample data *)

Definition existing_good_3 : RouteInfo :=
  mkRouteInfo "node-B" "node-A" 3 GOOD 50%Q 30%Q.

Definition five_hop_announcement : RouteData :=
  {| rd_destination := Some "node-C";
     rd_hop_count := Some 5;
     rd_signal_strength := Some 0.9%Q |}.

Definition no_destination_announcement : RouteData :=
  {| rd_destination := None;
     rd_hop_count := Some 1;
     rd_signal_strength := Some 0.9%Q |}.

Definition no_signal_announcement : RouteData :=
  {| rd_destination := Some "node-D";
     rd_hop_count := Some 2;
     rd_signal_strength := None |}.

Definition gateway_node : MeshNode :=
  mkMeshNode "GW-1" "node-G" 10%Q 1 0.5%Q (Some 0.75%Q) true
    {["node-H" := existing_good_3]}.

Definition old_route : RouteInfo :=
  mkRouteInfo "node-B" "node-A" 2 GOOD (1000 - 91)%Q 30%Q.

Definition old_node : MeshNode :=
  mkMeshNode "REL-1" "node-A" (1000 - 181)%Q 1 0.85%Q None false ∅.

Definition node_a_announcement : RouteData :=
  {| rd_destination := Some "node-B";
     rd_hop_count := Some 1;
     rd_signal_strength := Some 0.9%Q |}.

Definition sample_reachable : MeshNetwork :=
  (process_route_announcement "node-A" [node_a_announcement] 100%Q
     (add_neighbor "REL-1" "node-A" 0.85%Q 90%Q 90%Q (init "ME" 7%Q))).2.

Definition boundary_node : MeshNode :=
  mkMeshNode "REL-1" "node-A" (1000 - 180)%Q 1 0.85%Q None false ∅.

Definition far_negative_announcement : RouteData :=
  {| rd_destination := Some "node-D";
     rd_hop_count := Some (-3200);
     rd_signal_strength := None |}.

(** ** Small tests of the embedding *)

Example add_neighbor_scenario :
  find_route "node-A"
    (add_neighbor "REL-1" "node-A" 0.85%Q 100%Q 100%Q (init "ME" 7%Q))
  = Some (mkRouteInfo "node-A" "node-A" 1 EXCELLENT 100%Q (0.85 * 50.0)%Q).
Proof. vm_compute. reflexivity. Qed.

Example announcement_scenario :
  (fun r => (next_hop r, hop_count r)) <$>
  find_route "node-B"
    (process_route_announcement "node-A" [node_a_announcement] 100%Q
       (init "ME" 7%Q)).2
  = Some ("node-A", 2).
Proof. vm_compute. reflexivity. Qed.

(** ** Metric model: properties *)

Section Metric.

Local Open Scope Q_scope.

(** The hop penalty factor is never negative, whatever the exponent. *)
Lemma hop_penalty_nonneg (hops : Z) : 0 <= 0.8 ^ (hops - 1).
Proof. apply Qpower_0_le. discriminate. Qed.

(** The threshold cascade alone, as a function of the adjusted strength. *)
Lemma cascade_monotone (a b : Q) :
  a <= b ->
  Z.le
    (value (if decide (0.8 < b) then EXCELLENT
            else if decide (0.6 < b) then GOOD
            else if decide (0.4 < b) then FAIR
            else if decide (0.2 < b) then POOR
            else UNREACHABLE))
    (value (if decide (0.8 < a) then EXCELLENT
            else if decide (0.6 < a) then GOOD
            else if decide (0.4 < a) then FAIR
            else if decide (0.2 < a) then POOR
            else UNREACHABLE)).
Proof.
  intros Hab.
  assert (Hup : forall c, c < a -> c < b)
    by (intros c Hc; eapply Qlt_le_trans; eauto).
  repeat (destruct (decide _) as [?|?]); simpl; try lia;
    exfalso; eauto.
Qed.

End Metric.

(** C6. For a fixed hop count, a higher signal never yields a worse
    (numerically larger) class. *)
Theorem calculate_metric_monotone (s1 s2 : Q) (hops : Z) :
  (s1 <= s2)%Q ->
  value (_calculate_metric s2 hops) <= value (_calculate_metric s1 hops).
Proof.
  intros Hs. unfold _calculate_metric. cbv zeta.
  apply cascade_monotone.
  apply Qmult_le_compat_r; [exact Hs|apply hop_penalty_nonneg].
Qed.

Lemma calculate_metric_monotone_witness :
  (0.5 <= 0.9)%Q /\
  value (_calculate_metric 0.9%Q 2) <= value (_calculate_metric 0.5%Q 2).
Proof.
  split; [discriminate|].
  apply (calculate_metric_monotone 0.5%Q 0.9%Q 2). discriminate.
Defined.

(** ** Announcement processor: the three ways one announcement can go *)

Section Processor.

Variables (from_node : string) (current_time : Q).

Lemma process_one_missing route_data key self :
  missing_key route_data = Some key ->
  process_one from_node current_time route_data self
  = (Raised (KeyError key), self).
Proof.
  unfold missing_key, process_one.
  destruct (rd_destination route_data) as [d|],
           (rd_hop_count route_data) as [h|]; intros Hk;
    inversion Hk; reflexivity.
Qed.

Lemma process_one_well_formed route_data dest announced self :
  rd_destination route_data = Some dest ->
  rd_hop_count route_data = Some announced ->
  process_one from_node current_time route_data self
  = (Returned tt,
     after_one from_node current_time dest announced
       (default 0.0%Q (rd_signal_strength route_data)) self).
Proof.
  intros Hd Hh. unfold process_one, after_one. rewrite Hd, Hh.
  unfold subscript, mbind, M_bind, mret, M_ret, get_self, modify.
  cbn beta iota.
  repeat case_bool_decide; try reflexivity.
  destruct (wins _ _ _); reflexivity.
Qed.

(** The loop body only ever writes the routing table. *)
Lemma after_one_frame dest announced signal self :
  exists table,
    after_one from_node current_time dest announced signal self
    = set_routing_table (fun _ => table) self.
Proof.
  unfold after_one.
  assert (Hid : exists table, self = set_routing_table (fun _ => table) self)
    by (exists (routing_table self); destruct self; reflexivity).
  repeat case_bool_decide; try exact Hid.
  destruct (wins _ _ _); [|exact Hid].
  eexists. destruct self; reflexivity.
Qed.

Lemma process_one_frame route_data self :
  exists table,
    (process_one from_node current_time route_data self).2
    = set_routing_table (fun _ => table) self.
Proof.
  destruct (missing_key route_data) as [key|] eqn:Hk.
  - rewrite (process_one_missing _ _ _ Hk). simpl.
    exists (routing_table self). destruct self; reflexivity.
  - unfold missing_key in Hk.
    destruct (rd_destination route_data) as [d|] eqn:Hd; [|discriminate].
    destruct (rd_hop_count route_data) as [h|] eqn:Hh; [|discriminate].
    rewrite (process_one_well_formed _ _ _ _ Hd Hh). simpl.
    apply after_one_frame.
Qed.

Lemma for_each_cons route_data rest self :
  for_each (route_data :: rest) (process_one from_node current_time) self
  = match process_one from_node current_time route_data self with
    | (Returned _, self') =>
        for_each rest (process_one from_node current_time) self'
    | (Raised e, self') => (Raised e, self')
    end.
Proof. reflexivity. Qed.

Lemma for_each_app (pre post : list RouteData) self :
  for_each (pre ++ post) (process_one from_node current_time) self
  = match for_each pre (process_one from_node current_time) self with
    | (Returned _, self') =>
        for_each post (process_one from_node current_time) self'
    | (Raised e, self') => (Raised e, self')
    end.
Proof.
  revert self. induction pre as [|rd pre IH]; intros self; [reflexivity|].
  rewrite <- app_comm_cons, !for_each_cons.
  destruct (process_one from_node current_time rd self) as [[[]|e] self'];
    [apply IH|reflexivity].
Qed.

Lemma for_each_frame (batch : list RouteData) self :
  exists table,
    (for_each batch (process_one from_node current_time) self).2
    = set_routing_table (fun _ => table) self.
Proof.
  revert self. induction batch as [|rd batch IH]; intros self.
  - exists (routing_table self). destruct self; reflexivity.
  - rewrite for_each_cons.
    destruct (process_one_frame rd self) as [t1 H1].
    destruct (process_one from_node current_time rd self)
      as [[[]|e] self']; simpl in H1; subst self'.
    + destruct (IH (set_routing_table (fun _ => t1) self)) as [t2 H2].
      exists t2. rewrite H2. reflexivity.
    + exists t1. reflexivity.
Qed.

(** A batch of well-formed announcements never raises. *)
Lemma for_each_well_formed (batch : list RouteData) self :
  Forall well_formed batch ->
  (for_each batch (process_one from_node current_time) self).1
  = Returned tt.
Proof.
  intros Hall. revert self.
  induction Hall as [|rd batch [[d Hd] [h Hh]] _ IH]; intros self;
    [reflexivity|].
  rewrite for_each_cons, (process_one_well_formed _ _ _ _ Hd Hh).
  apply IH.
Qed.

End Processor.

Lemma is_better_route_spec new_metric new_hops existing :
  _is_better_route new_metric new_hops existing = true <->
  value new_metric < value (metric existing) \/
  (value new_metric = value (metric existing) /\
   new_hops < hop_count existing).
Proof.
  unfold _is_better_route.
  repeat case_bool_decide; simpl; split; intros; try done; try lia;
    intuition lia.
Qed.

Lemma wins_spec existing new_metric new_hops :
  wins existing new_metric new_hops = true <->
  better_route_rule existing new_metric new_hops.
Proof.
  unfold wins, better_route_rule. destruct existing as [e|].
  - rewrite is_better_route_spec. split.
    + intros H. right. exists e. split; [reflexivity|exact H].
    + intros [H|(e' & He & H)]; [discriminate|]. by inversion He; subst.
  - split; [by left|reflexivity].
Qed.

(** C4. The processor adds one hop to the announced hop count and skips
    the announcement, without error and without touching the engine
    state (so the entry for that destination, if any, is unchanged), when
    the result exceeds [max_hop_count] or the destination is the local node
    id; a batch behaves as if the announcement were not in it. With
    [max_hop_count = 5], an announced hop count of 5 is rejected. *)
Theorem rejected_announcement_is_skipped
    (from_node : string) (current_time : Q) (route_data : RouteData)
    (dest : string) (announced : Z) (self : MeshNetwork) :
  rd_destination route_data = Some dest ->
  rd_hop_count route_data = Some announced ->
  (max_hop_count self < announced + 1 \/ dest = local_node_id self ->
   process_one from_node current_time route_data self = (Returned tt, self)
   /\
   forall pre post : list RouteData,
     process_route_announcement from_node (pre ++ route_data :: post)
       current_time self
     = process_route_announcement from_node (pre ++ post) current_time self)
  /\
  (max_hop_count self = 5 -> announced = 5 ->
   process_one from_node current_time route_data self = (Returned tt, self)
   /\ routing_table
        (process_one from_node current_time route_data self).2 !! dest
      = routing_table self !! dest).
Proof.
  intros Hd Hh.
  assert (Hskip : forall s,
            max_hop_count s < announced + 1 \/ dest = local_node_id s ->
            process_one from_node current_time route_data s
            = (Returned tt, s)).
  { intros s Hrej.
    rewrite (process_one_well_formed _ _ _ _ _ _ Hd Hh). unfold after_one.
    destruct Hrej as [Hhops|Hlocal].
    - rewrite bool_decide_eq_true_2 by exact Hhops. reflexivity.
    - case_bool_decide; [reflexivity|].
      rewrite bool_decide_eq_true_2 by exact Hlocal. reflexivity. }
  split.
  - intros Hrej. split; [apply Hskip, Hrej|].
    intros pre post. unfold process_route_announcement.
    rewrite !for_each_app.
    destruct (for_each_frame from_node current_time pre self) as [t Ht].
    destruct (for_each pre _ self) as [[[]|e] self']; [|reflexivity].
    simpl in Ht. rewrite for_each_cons, Hskip; [reflexivity|].
    subst self'. exact Hrej.
  - intros Hmax ->.
    rewrite Hskip by (left; lia). split; reflexivity.
Qed.

Lemma rejected_announcement_is_skipped_witness :
  process_one "node-A" 100%Q five_hop_announcement (init "ME" 7%Q)
  = (Returned tt, init "ME" 7%Q).
Proof.
  apply (rejected_announcement_is_skipped "node-A" 100%Q
           five_hop_announcement "node-C" 5 (init "ME" 7%Q));
    reflexivity.
Defined.

(** C3, as the specification states it, fails: in the batch
    [[no_destination_announcement; node_a_announcement]] the first dict
    has no ['destination'] key; the call raises [KeyError] to its caller
    and the second announcement, which alone installs a route to node-B,
    is never processed. The same holds of the loop over machine
    arithmetic. *)
Lemma missing_field_is_not_skipped :
  let self := init "ME" 7%Q in
  let batch := [no_destination_announcement; node_a_announcement] in
  (process_route_announcement "node-A" batch 100%Q self).1
  = Raised (KeyError "destination")
  /\ find_route "node-B"
       (process_route_announcement "node-A" batch 100%Q self).2 = None
  /\ find_route "node-B"
       (process_route_announcement "node-A" [node_a_announcement]
          100%Q self).2
     = Some (new_route "node-A" 100%Q "node-B" 2 0.9%Q)
  /\ (@Machine.process_route_announcement exact_float "node-A" batch
        100%Q self).1
     = Raised (KeyError "destination")
  /\ find_route "node-B"
       (@Machine.process_route_announcement exact_float "node-A" batch
          100%Q self).2 = None
  /\ next_hop <$>
     find_route "node-B"
       (@Machine.process_route_announcement exact_float "node-A"
          [node_a_announcement] 100%Q self).2
     = Some "node-A".
Proof. vm_compute. repeat split; reflexivity. Qed.

(** C10. When the node id is already in the node map, [add_neighbor]
    stores a freshly built [MeshNode] in its place: whatever battery
    level, gateway flag and per-node routes the old record had, the stored
    one has [None], [False] and an empty map. *)
Theorem add_neighbor_resets_node
    (cs id : string) (signal t_seen t_route : Q)
    (self : MeshNetwork) (old : MeshNode) :
  nodes self !! id = Some old ->
  exists fresh : MeshNode,
    nodes (add_neighbor cs id signal t_seen t_route self) !! id = Some fresh
    /\ fresh = mkMeshNode cs id t_seen 1 signal None false ∅
    /\ battery_level fresh = None
    /\ is_gateway fresh = false
    /\ routes fresh = ∅.
Proof.
  intros _. eexists. split.
  - unfold add_neighbor, set_routing_table, set_neighbor_nodes, set_nodes.
    cbn [nodes]. apply lookup_insert_eq.
  - repeat split.
Qed.

Lemma add_neighbor_resets_node_witness :
  exists fresh : MeshNode,
    nodes (add_neighbor "GW-1" "node-G" 0.6%Q 20%Q 20%Q
             (set_nodes <["node-G" := gateway_node]> (init "ME" 7%Q)))
      !! "node-G" = Some fresh
    /\ fresh = mkMeshNode "GW-1" "node-G" 20%Q 1 0.6%Q None false ∅
    /\ battery_level fresh = None
    /\ is_gateway fresh = false
    /\ routes fresh = ∅.
Proof.
  apply (add_neighbor_resets_node "GW-1" "node-G" 0.6%Q 20%Q 20%Q
           (set_nodes <["node-G" := gateway_node]> (init "ME" 7%Q))
           gateway_node).
  reflexivity.
Defined.

(** ** Maintenance sweeps *)

Section Sweeps.

Context {V : Type}.

(** Deleting a list of keys one by one. *)
Lemma lookup_foldl_delete (keys : list string) (m : gmap string V) k :
  foldl (fun m key => delete key m) m keys !! k
  = if decide (k ∈ keys) then None else m !! k.
Proof.
  revert m. induction keys as [|key keys IH]; intros m; cbn [foldl].
  - destruct (decide (k ∈ [])) as [Hin|_]; [|reflexivity].
    by apply elem_of_nil in Hin.
  - rewrite IH. destruct (decide (k = key)) as [->|Hne].
    + rewrite lookup_delete_eq.
      destruct (decide (key ∈ keys)),
               (decide (key ∈ key :: keys)) as [|Hout];
        try reflexivity; exfalso; apply Hout, list_elem_of_here.
    + rewrite lookup_delete_ne by done.
      destruct (decide (k ∈ keys)) as [Hin|Hin],
               (decide (k ∈ key :: keys)) as [Hin'|Hin'];
        try reflexivity; exfalso.
      * apply Hin'. by apply list_elem_of_further.
      * apply elem_of_cons in Hin' as [?|?]; contradiction.
Qed.

(** The keys a sweep collects: those whose value satisfies the test. *)
Lemma elem_of_collected (P : string * V -> Prop)
    `{!forall kv, Decision (P kv)} (m : gmap string V) k :
  k ∈ (filter P (map_to_list m)).*1 <-> exists v, m !! k = Some v /\ P (k, v).
Proof.
  rewrite list_elem_of_fmap. split.
  - intros [[k' v] [-> [HP Hin]%list_elem_of_filter]].
    apply elem_of_map_to_list in Hin. by exists v.
  - intros (v & Hv & HP). exists (k, v). split; [reflexivity|].
    apply list_elem_of_filter. split; [exact HP|].
    by apply elem_of_map_to_list.
Qed.

End Sweeps.

Lemma foldl_delete_routes (keys : list string) (self : MeshNetwork) :
  foldl (fun self dest => set_routing_table (delete dest) self) self keys
  = set_routing_table
      (fun table => foldl (fun m key => delete key m) table keys) self.
Proof.
  revert self. induction keys as [|key keys IH]; intros self; simpl.
  - destruct self; reflexivity.
  - rewrite IH. destruct self; reflexivity.
Qed.

Lemma foldl_delete_nodes (keys : list string) (self : MeshNetwork) :
  foldl (fun self id =>
           set_neighbor_nodes (fun s => s ∖ {[id]})
             (set_nodes (delete id) self)) self keys
  = set_neighbor_nodes
      (fun s => foldl (fun s id => s ∖ {[id]}) s keys)
      (set_nodes (fun m => foldl (fun m key => delete key m) m keys) self).
Proof.
  revert self. induction keys as [|key keys IH]; intros self; simpl.
  - destruct self; reflexivity.
  - rewrite IH. destruct self; reflexivity.
Qed.

Lemma elem_of_foldl_discard (keys : list string) (s : gset string) k :
  k ∈ foldl (fun s id => s ∖ {[id]}) s keys <-> k ∈ s /\ k ∉ keys.
Proof.
  revert s. induction keys as [|key keys IH]; intros s; simpl.
  - split; [intros H; split; [exact H|apply not_elem_of_nil]|by intros [H _]].
  - rewrite IH, elem_of_difference, elem_of_singleton, not_elem_of_cons.
    tauto.
Qed.

(** What [_cleanup_stale_routes] leaves in the routing table. *)
Lemma lookup_cleanup_stale_routes (now : Q) (self : MeshNetwork) dest :
  routing_table (_cleanup_stale_routes now self) !! dest
  = match routing_table self !! dest with
    | Some route =>
        if decide (route_is_stale self now route) then None else Some route
    | None => None
    end.
Proof.
  unfold _cleanup_stale_routes. rewrite foldl_delete_routes.
  cbn [routing_table set_routing_table]. rewrite lookup_foldl_delete.
  case_decide as Hin.
  - apply elem_of_collected in Hin as (route & -> & Hstale). simpl in Hstale.
    by rewrite decide_True.
  - destruct (routing_table self !! dest) as [route|] eqn:Hr; [|reflexivity].
    case_decide as Hstale; [|reflexivity].
    exfalso. apply Hin. apply elem_of_collected. by exists route.
Qed.

(** The routes sweep writes nothing but the routing table. *)
Lemma cleanup_stale_routes_frame (now : Q) (self : MeshNetwork) :
  exists table,
    _cleanup_stale_routes now self = set_routing_table (fun _ => table) self.
Proof.
  unfold _cleanup_stale_routes. rewrite foldl_delete_routes.
  eexists. destruct self; reflexivity.
Qed.

(** What [_cleanup_stale_nodes] leaves in the node map. *)
Lemma lookup_cleanup_stale_nodes (now : Q) (self : MeshNetwork) id :
  nodes (_cleanup_stale_nodes now self) !! id
  = match nodes self !! id with
    | Some node =>
        if decide (node_is_stale self now node) then None else Some node
    | None => None
    end.
Proof.
  unfold _cleanup_stale_nodes. rewrite foldl_delete_nodes.
  cbn [nodes set_nodes set_neighbor_nodes]. rewrite lookup_foldl_delete.
  case_decide as Hin.
  - apply elem_of_collected in Hin as (node & -> & Hstale). simpl in Hstale.
    by rewrite decide_True.
  - destruct (nodes self !! id) as [node|] eqn:Hn; [|reflexivity].
    case_decide as Hstale; [|reflexivity].
    exfalso. apply Hin. apply elem_of_collected. by exists node.
Qed.

(** What [_cleanup_stale_nodes] leaves in the neighbour set. *)
Lemma elem_of_cleanup_stale_nodes (now : Q) (self : MeshNetwork) id :
  id ∈ neighbor_nodes (_cleanup_stale_nodes now self) <->
  id ∈ neighbor_nodes self /\
  ~ exists node, nodes self !! id = Some node /\ node_is_stale self now node.
Proof.
  unfold _cleanup_stale_nodes. rewrite foldl_delete_nodes.
  cbn [neighbor_nodes set_nodes set_neighbor_nodes].
  rewrite elem_of_foldl_discard, elem_of_collected. reflexivity.
Qed.

(** The nodes sweep leaves the routing table alone. *)
Lemma cleanup_stale_nodes_routing_table (now : Q) (self : MeshNetwork) :
  routing_table (_cleanup_stale_nodes now self) = routing_table self.
Proof.
  unfold _cleanup_stale_nodes. rewrite foldl_delete_nodes. reflexivity.
Qed.

(** C7. A maintenance pass removes from the routing table exactly the
    entries whose age [now - last_updated] exceeds three times
    [route_update_interval] and keeps every other entry as it was. With an
    interval of 30 s, an entry last updated 91 s ago is gone after the
    pass and one last updated 89 s ago is still there. *)
Theorem stale_routes_are_evicted
    (t_routes t_nodes : Q) (self : MeshNetwork) (dest : string) :
  routing_table (maintenance_pass t_routes t_nodes self) !! dest
  = match routing_table self !! dest with
    | Some route =>
        if decide (route_update_interval self * 3
                   < t_routes - last_updated route)%Q
        then None else Some route
    | None => None
    end
  /\
  (forall route : RouteInfo,
     (route_update_interval self == 30.0)%Q ->
     routing_table self !! dest = Some route ->
     ((last_updated route == t_routes - 91)%Q ->
      routing_table (maintenance_pass t_routes t_nodes self) !! dest = None)
     /\
     ((last_updated route == t_routes - 89)%Q ->
      routing_table (maintenance_pass t_routes t_nodes self) !! dest
      = Some route)).
Proof.
  assert (Hpass : routing_table (maintenance_pass t_routes t_nodes self)
                    !! dest
                  = match routing_table self !! dest with
                    | Some route =>
                        if decide (route_update_interval self * 3
                                   < t_routes - last_updated route)%Q
                        then None else Some route
                    | None => None
                    end).
  { unfold maintenance_pass.
    rewrite cleanup_stale_nodes_routing_table.
    apply lookup_cleanup_stale_routes. }
  split; [exact Hpass|].
  intros route Hint Hroute. rewrite Hpass, Hroute. split; intros Hage.
  - rewrite decide_True; [reflexivity|].
    rewrite Hint, Hage.
    assert (Hd : (t_routes - (t_routes - 91) == 91)%Q) by ring.
    rewrite Hd. reflexivity.
  - rewrite decide_False; [reflexivity|].
    rewrite Hint, Hage.
    assert (Hd : (t_routes - (t_routes - 89) == 89)%Q) by ring.
    rewrite Hd. discriminate.
Qed.

Lemma stale_routes_are_evicted_witness :
  routing_table
    (maintenance_pass 1000%Q 1000%Q
       (set_routing_table <["node-B" := old_route]> (init "ME" 7%Q)))
    !! "node-B" = None.
Proof.
  apply (stale_routes_are_evicted 1000%Q 1000%Q
           (set_routing_table <["node-B" := old_route]> (init "ME" 7%Q))
           "node-B") with (route := old_route); reflexivity.
Defined.

(** C8. A maintenance pass removes from the node map exactly the nodes
    whose age [now - last_seen] exceeds [node_timeout], keeps the others
    as they were, and removes each removed node id from the neighbour
    set, which otherwise keeps its members. With a timeout of 180 s, a
    node last seen 181 s ago is gone from both. *)
Theorem stale_nodes_are_evicted
    (t_routes t_nodes : Q) (self : MeshNetwork) (id : string) :
  nodes (maintenance_pass t_routes t_nodes self) !! id
  = match nodes self !! id with
    | Some node =>
        if decide (node_timeout self < t_nodes - last_seen node)%Q
        then None else Some node
    | None => None
    end
  /\
  (id ∈ neighbor_nodes (maintenance_pass t_routes t_nodes self) <->
   id ∈ neighbor_nodes self /\
   ~ exists node, nodes self !! id = Some node /\
                  (node_timeout self < t_nodes - last_seen node)%Q)
  /\
  (forall node : MeshNode,
     (node_timeout self == 180.0)%Q ->
     nodes self !! id = Some node ->
     (last_seen node == t_nodes - 181)%Q ->
     nodes (maintenance_pass t_routes t_nodes self) !! id = None /\
     id ∉ neighbor_nodes (maintenance_pass t_routes t_nodes self)).
Proof.
  unfold maintenance_pass.
  destruct (cleanup_stale_routes_frame t_routes self) as [table ->].
  pose proof (lookup_cleanup_stale_nodes t_nodes
                (set_routing_table (fun _ => table) self) id) as Hnodes.
  pose proof (elem_of_cleanup_stale_nodes t_nodes
                (set_routing_table (fun _ => table) self) id) as Hneigh.
  unfold node_is_stale in Hnodes, Hneigh.
  cbn [nodes neighbor_nodes node_timeout set_routing_table]
    in Hnodes, Hneigh.
  split; [exact Hnodes|]. split; [exact Hneigh|].
  intros node Htimeout Hnode Hage.
  assert (Hstale : (node_timeout self < t_nodes - last_seen node)%Q).
  { rewrite Htimeout, Hage.
    assert (Hd : (t_nodes - (t_nodes - 181) == 181)%Q) by ring.
    rewrite Hd. reflexivity. }
  split.
  - rewrite Hnodes, Hnode. by rewrite decide_True.
  - rewrite Hneigh. intros [_ Hnot]. apply Hnot. by exists node.
Qed.

Lemma stale_nodes_are_evicted_witness :
  nodes
    (maintenance_pass 1000%Q 1000%Q
       (set_neighbor_nodes (fun s => s ∪ {["node-A"]})
          (set_nodes <["node-A" := old_node]> (init "ME" 7%Q))))
    !! "node-A" = None
  /\ "node-A" ∉
     neighbor_nodes
       (maintenance_pass 1000%Q 1000%Q
          (set_neighbor_nodes (fun s => s ∪ {["node-A"]})
             (set_nodes <["node-A" := old_node]> (init "ME" 7%Q)))).
Proof.
  apply (stale_nodes_are_evicted 1000%Q 1000%Q
           (set_neighbor_nodes (fun s => s ∪ {["node-A"]})
              (set_nodes <["node-A" := old_node]> (init "ME" 7%Q)))
           "node-A") with (node := old_node); reflexivity.
Defined.

(** ** The routing-table invariant *)

(** The announcement processor keeps the invariant: it has both guards. *)
Lemma after_one_preserves_invariant from_node current_time dest announced
    signal self :
  route_invariant self ->
  route_invariant (after_one from_node current_time dest announced signal self).
Proof.
  intros Hinv. unfold after_one.
  case_bool_decide as Hhops; [exact Hinv|].
  case_bool_decide as Hlocal; [exact Hinv|].
  destruct (wins _ _ _); [|exact Hinv].
  intros d route. unfold set_routing_table.
  cbn [routing_table local_node_id max_hop_count].
  destruct (decide (dest = d)) as [<-|Hne].
  - rewrite lookup_insert_eq. intros [= <-]. simpl. split; [exact Hlocal|lia].
  - rewrite lookup_insert_ne by exact Hne. apply Hinv.
Qed.

Lemma process_route_announcement_preserves_invariant from_node batch now self :
  route_invariant self ->
  route_invariant (process_route_announcement from_node batch now self).2.
Proof.
  unfold process_route_announcement. revert self.
  induction batch as [|rd batch IH]; intros self Hinv; [exact Hinv|].
  rewrite for_each_cons.
  destruct (missing_key rd) as [key|] eqn:Hk.
  - rewrite (process_one_missing _ _ _ _ _ Hk). exact Hinv.
  - unfold missing_key in Hk.
    destruct (rd_destination rd) as [d|] eqn:Hd; [|discriminate].
    destruct (rd_hop_count rd) as [h|] eqn:Hh; [|discriminate].
    rewrite (process_one_well_formed _ _ _ _ _ _ Hd Hh).
    apply IH, after_one_preserves_invariant, Hinv.
Qed.

(** The sweeps only delete, so they keep the invariant. *)
Lemma maintenance_pass_preserves_invariant t_routes t_nodes self :
  route_invariant self ->
  route_invariant (maintenance_pass t_routes t_nodes self).
Proof.
  intros Hinv dest route Hroute.
  assert (Hcfg : local_node_id (maintenance_pass t_routes t_nodes self)
                 = local_node_id self
                 /\ max_hop_count (maintenance_pass t_routes t_nodes self)
                    = max_hop_count self).
  { unfold maintenance_pass, _cleanup_stale_nodes.
    rewrite foldl_delete_nodes.
    destruct (cleanup_stale_routes_frame t_routes self) as [table ->].
    split; reflexivity. }
  destruct Hcfg as [-> ->].
  unfold maintenance_pass in Hroute.
  rewrite cleanup_stale_nodes_routing_table, lookup_cleanup_stale_routes
    in Hroute.
  destruct (routing_table self !! dest) as [route'|] eqn:Hr; [|discriminate].
  case_decide; [discriminate|]. injection Hroute as <-.
  exact (Hinv dest route' Hr).
Qed.

(** [add_neighbor] keeps the invariant when the neighbour is not the local
    node and at least one hop is allowed. *)
Lemma add_neighbor_preserves_invariant cs id signal t_seen t_route self :
  id <> local_node_id self ->
  1 <= max_hop_count self ->
  route_invariant self ->
  route_invariant (add_neighbor cs id signal t_seen t_route self).
Proof.
  intros Hid Hmax Hinv d route.
  unfold add_neighbor, set_routing_table, set_neighbor_nodes, set_nodes.
  cbn [routing_table local_node_id max_hop_count].
  destruct (decide (id = d)) as [<-|Hne].
  - rewrite lookup_insert_eq. intros [= <-]. simpl. split; [exact Hid|exact Hmax].
  - rewrite lookup_insert_ne by exact Hne. apply Hinv.
Qed.

(** C1 fails on [add_neighbor]: called with the local node's own id it
    installs, without any check, a route entry whose destination is the
    local node id, so a state reachable from a fresh engine by one call
    breaks the invariant. The announcement processor has the guard
    ("Skip routes to ourselves"); [add_neighbor] has none. *)
Theorem add_neighbor_installs_route_to_self :
  (forall (cs : string) (signal t_seen t_route : Q) (self : MeshNetwork),
     let self' :=
       add_neighbor cs (local_node_id self) signal t_seen t_route self in
     (exists route,
        find_route (local_node_id self') self' = Some route /\
        destination route = local_node_id self') /\
     ~ route_invariant self')
  /\
  (exists self, reachable self /\ ~ route_invariant self).
Proof.
  assert (Hbreak :
    forall (cs : string) (signal t_seen t_route : Q) (self : MeshNetwork),
      let self' :=
        add_neighbor cs (local_node_id self) signal t_seen t_route self in
      (exists route,
         find_route (local_node_id self') self' = Some route /\
         destination route = local_node_id self') /\
      ~ route_invariant self').
  { intros cs signal t_seen t_route self self'.
    assert (Hfound : exists route,
               find_route (local_node_id self') self' = Some route /\
               destination route = local_node_id self').
    { eexists. split.
      - unfold self', find_route, add_neighbor, set_routing_table,
          set_neighbor_nodes, set_nodes.
        cbn [routing_table local_node_id]. apply lookup_insert_eq.
      - reflexivity. }
    split; [exact Hfound|].
    destruct Hfound as (route & Hroute & Hdest).
    intros Hinv. destruct (Hinv _ _ Hroute) as [Hne _]. exact (Hne Hdest). }
  split; [exact Hbreak|].
  exists (add_neighbor "ME" (local_node_id (init "ME" 7%Q)) 0.85%Q
            100%Q 100%Q (init "ME" 7%Q)).
  split.
  - apply reach_add_neighbor, reach_init.
  - apply Hbreak.
Qed.

(** ** Further properties of the metric model *)

Section MetricBounds.

Local Open Scope Q_scope.

(** The hop penalty shrinks as the hop count grows. *)
Lemma hop_penalty_antitone (h1 h2 : Z) :
  (h1 <= h2)%Z -> 0.8 ^ (h2 - 1) <= 0.8 ^ (h1 - 1).
Proof.
  intros Hle.
  assert (Hflip : forall k, 0.8 ^ k == (5 # 4) ^ (- k)).
  { intros k. rewrite Qpower_opp, <- Qinv_power.
    apply Qpower_comp; reflexivity. }
  rewrite !Hflip. apply Qpower_le_compat_l; [lia|discriminate].
Qed.

Lemma py_max_lower (a b : Q) : a <= py_max a b /\ b <= py_max a b.
Proof.
  unfold py_max. destruct (decide (a < b)) as [Hlt|Hge].
  - split; [apply Qlt_le_weak, Hlt|apply Qle_refl].
  - split; [apply Qle_refl|apply Qnot_lt_le, Hge].
Qed.

End MetricBounds.

Lemma estimate_bandwidth_range (signal : Q) :
  (0.1 <= _estimate_bandwidth signal)%Q /\
  (signal * 50.0 <= _estimate_bandwidth signal)%Q /\
  (_estimate_bandwidth signal = 0.1%Q \/
   _estimate_bandwidth signal = (signal * 50.0)%Q).
Proof.
  unfold _estimate_bandwidth.
  destruct (py_max_lower 0.1%Q (signal * 50.0)%Q) as [H1 H2].
  split; [exact H1|]. split; [exact H2|].
  unfold py_max. destruct (decide _); [right|left]; reflexivity.
Qed.

(** X1. [_estimate_bandwidth] never returns less than the 0.1 Mbps floor
    nor less than [signal * 50]; its result is one of the two, so it is
    positive whatever the signal. *)
Theorem estimate_bandwidth_bounds (signal : Q) :
  (0.1 <= _estimate_bandwidth signal)%Q /\
  (signal * 50.0 <= _estimate_bandwidth signal)%Q /\
  (_estimate_bandwidth signal = 0.1%Q \/
   _estimate_bandwidth signal = (signal * 50.0)%Q) /\
  (0 < _estimate_bandwidth signal)%Q.
Proof.
  destruct (estimate_bandwidth_range signal) as (Hfloor & Hlin & Hcases).
  repeat (split; [assumption|]).
  eapply Qlt_le_trans; [|exact Hfloor]. reflexivity.
Qed.

(** X2. The bandwidth estimate never decreases when the signal grows. *)
Theorem estimate_bandwidth_monotone (s1 s2 : Q) :
  (s1 <= s2)%Q -> (_estimate_bandwidth s1 <= _estimate_bandwidth s2)%Q.
Proof.
  intros Hs.
  assert (H50 : (s1 * 50.0 <= s2 * 50.0)%Q)
    by (apply Qmult_le_compat_r; [exact Hs|discriminate]).
  destruct (estimate_bandwidth_range s2) as (Hfloor & Hlin & _).
  destruct (estimate_bandwidth_range s1) as (_ & _ & [-> | ->]).
  - exact Hfloor.
  - eapply Qle_trans; [exact H50|exact Hlin].
Qed.

Lemma estimate_bandwidth_monotone_witness :
  (0.5 <= 0.9)%Q /\ (_estimate_bandwidth 0.5 <= _estimate_bandwidth 0.9)%Q.
Proof.
  split; [discriminate|].
  apply (estimate_bandwidth_monotone 0.5%Q 0.9%Q). discriminate.
Defined.

(** X3. For a signal that is not negative, a longer path never gets a
    better class than a shorter one. *)
Theorem calculate_metric_antitone_in_hops (signal : Q) (h1 h2 : Z) :
  (0 <= signal)%Q -> h1 <= h2 ->
  value (_calculate_metric signal h1) <= value (_calculate_metric signal h2).
Proof.
  intros Hs Hh. unfold _calculate_metric. cbv zeta.
  apply cascade_monotone.
  rewrite !(Qmult_comm signal).
  apply Qmult_le_compat_r; [apply hop_penalty_antitone, Hh|exact Hs].
Qed.

Lemma calculate_metric_antitone_in_hops_witness :
  (0 <= 0.9)%Q /\ 1 <= 3 /\
  value (_calculate_metric 0.9%Q 1) <= value (_calculate_metric 0.9%Q 3).
Proof.
  split; [discriminate|]. split; [lia|].
  apply (calculate_metric_antitone_in_hops 0.9%Q 1 3); [discriminate|lia].
Defined.

(** X4. A signal of at most 1 over two or more hops is never classed
    EXCELLENT: the adjusted strength cannot exceed 0.8. *)
Theorem relayed_in_range_signal_not_excellent (signal : Q) (hops : Z) :
  (signal <= 1)%Q -> 2 <= hops ->
  2 <= value (_calculate_metric signal hops).
Proof.
  intros Hs Hh. unfold _calculate_metric. cbv zeta.
  assert (Hp : (0.8 ^ (hops - 1) <= 0.8)%Q)
    by (apply (hop_penalty_antitone 2 hops), Hh).
  assert (Hadj : (signal * 0.8 ^ (hops - 1) <= 0.8)%Q).
  { eapply Qle_trans; [|exact Hp].
    rewrite <- (Qmult_1_l (0.8 ^ (hops - 1))) at 2.
    apply Qmult_le_compat_r; [exact Hs|apply hop_penalty_nonneg]. }
  destruct (decide (0.8 < _)%Q) as [Hgt|_].
  - exfalso. exact (Qlt_not_le _ _ Hgt Hadj).
  - repeat (destruct (decide _)); simpl; lia.
Qed.

Lemma relayed_in_range_signal_not_excellent_witness :
  (1 <= 1)%Q /\ 2 <= 2 /\ 2 <= value (_calculate_metric 1%Q 2).
Proof.
  split; [discriminate|]. split; [lia|].
  apply (relayed_in_range_signal_not_excellent 1%Q 2); [discriminate|lia].
Defined.

(** X5. Fed with a bandwidth estimate in place of a signal strength, as
    happens to every re-announced route (the sender puts
    [bandwidth_estimate] in the ['signal_strength'] slot), the metric is
    EXCELLENT at every hop count from 1 to 5 as soon as the original
    signal was at least 0.04. *)
Theorem reannounced_bandwidth_is_excellent (signal : Q) (hops : Z) :
  (0.04 <= signal)%Q -> 1 <= hops <= 5 ->
  _calculate_metric (_estimate_bandwidth signal) hops = EXCELLENT.
Proof.
  intros Hs [Hlo Hhi]. unfold _calculate_metric. cbv zeta.
  destruct (estimate_bandwidth_range signal) as (_ & Hlin & _).
  assert (Hbw : (2 <= _estimate_bandwidth signal)%Q).
  { eapply Qle_trans; [|exact Hlin].
    apply (Qle_trans _ (0.04 * 50.0)%Q); [discriminate|].
    apply Qmult_le_compat_r; [exact Hs|discriminate]. }
  assert (Hp : (0.4096 <= 0.8 ^ (hops - 1))%Q).
  { eapply Qle_trans; [|apply (hop_penalty_antitone hops 5), Hhi].
    discriminate. }
  assert (Hadj : (2 * 0.4096
                  <= _estimate_bandwidth signal * 0.8 ^ (hops - 1))%Q).
  { apply Qmult_le_compat_nonneg; split;
      [discriminate|exact Hbw|discriminate|exact Hp]. }
  rewrite decide_True; [reflexivity|].
  eapply Qlt_le_trans; [|exact Hadj]. reflexivity.
Qed.

Lemma reannounced_bandwidth_is_excellent_witness :
  (0.04 <= 0.3)%Q /\ 1 <= 2 <= 5 /\
  _calculate_metric (_estimate_bandwidth 0.3%Q) 2 = EXCELLENT.
Proof.
  split; [discriminate|]. split; [lia|].
  apply (reannounced_bandwidth_is_excellent 0.3%Q 2); [discriminate|lia].
Defined.

(** ** Further properties of the announcement processor *)

Lemma improves_on_trans (a b c : RouteInfo) :
  improves_on a b -> improves_on b c -> improves_on a c.
Proof.
  unfold improves_on. intros [->|Hab] [->|Hbc]; auto. right. lia.
Qed.

Section ProcessorMore.

Variables (from_node : string) (current_time : Q).

Lemma after_one_other dest announced signal self d :
  d <> dest ->
  routing_table
    (after_one from_node current_time dest announced signal self) !! d
  = routing_table self !! d.
Proof.
  intros Hne. unfold after_one.
  repeat case_bool_decide; try reflexivity.
  destruct (wins _ _ _); [|reflexivity].
  unfold set_routing_table. cbn [routing_table].
  apply lookup_insert_ne. congruence.
Qed.

Lemma after_one_improves dest announced signal self d e :
  routing_table self !! d = Some e ->
  exists e',
    routing_table
      (after_one from_node current_time dest announced signal self) !! d
    = Some e' /\ improves_on e' e.
Proof.
  intros He.
  assert (Hsame : exists e', routing_table self !! d = Some e'
                             /\ improves_on e' e)
    by (exists e; split; [exact He|by left]).
  destruct (decide (d = dest)) as [->|Hne].
  - unfold after_one.
    repeat case_bool_decide; try exact Hsame.
    destruct (wins _ _ _) eqn:Hw; [|exact Hsame].
    rewrite He in Hw. cbn [wins] in Hw.
    apply is_better_route_spec in Hw.
    eexists. unfold set_routing_table. cbn [routing_table].
    rewrite lookup_insert_eq. split; [reflexivity|].
    right. unfold new_route. cbn [metric hop_count]. exact Hw.
  - rewrite after_one_other by exact Hne. exact Hsame.
Qed.

End ProcessorMore.

(** A batch leaves alone the entry of a destination it does not name. *)
Lemma batch_other_destinations from_node now batch self dest :
  (forall route_data,
     route_data ∈ batch -> rd_destination route_data <> Some dest) ->
  routing_table (for_each batch (process_one from_node now) self).2 !! dest
  = routing_table self !! dest.
Proof.
  revert self.
  induction batch as [|rd batch IH]; intros self Hnamed; [reflexivity|].
  rewrite for_each_cons.
  destruct (missing_key rd) as [key|] eqn:Hk.
  - rewrite (process_one_missing _ _ _ _ _ Hk). reflexivity.
  - unfold missing_key in Hk.
    destruct (rd_destination rd) as [d|] eqn:Hd; [|discriminate].
    destruct (rd_hop_count rd) as [h|] eqn:Hh; [|discriminate].
    rewrite (process_one_well_formed _ _ _ _ _ _ Hd Hh).
    rewrite IH.
    + apply after_one_other. intros ->.
      apply (Hnamed rd); [apply list_elem_of_here|exact Hd].
    + intros rd' Hin. apply Hnamed. by apply list_elem_of_further.
Qed.

(** X6. [process_route_announcement] writes nothing but routing-table
    entries of destinations named in the batch: the node map, the
    neighbour set and the configuration are as before (also when the call
    raises), and so is the entry of every destination that no announcement
    of the batch names. *)
Theorem announcements_touch_only_named_routes
    (from_node : string) (batch : list RouteData) (now : Q)
    (self : MeshNetwork) :
  let self' := (process_route_announcement from_node batch now self).2 in
  nodes self' = nodes self /\
  neighbor_nodes self' = neighbor_nodes self /\
  local_node_id self' = local_node_id self /\
  max_hop_count self' = max_hop_count self /\
  route_update_interval self' = route_update_interval self /\
  node_timeout self' = node_timeout self /\
  forall dest,
    (forall route_data,
       route_data ∈ batch -> rd_destination route_data <> Some dest) ->
    find_route dest self' = find_route dest self.
Proof.
  intros self'. unfold self', process_route_announcement. clear self'.
  assert (Hcfg :
    let self' := (for_each batch (process_one from_node now) self).2 in
    nodes self' = nodes self /\
    neighbor_nodes self' = neighbor_nodes self /\
    local_node_id self' = local_node_id self /\
    max_hop_count self' = max_hop_count self /\
    route_update_interval self' = route_update_interval self /\
    node_timeout self' = node_timeout self).
  { destruct (for_each_frame from_node now batch self) as [table ->].
    repeat split. }
  cbv zeta in Hcfg. destruct Hcfg as (H1 & H2 & H3 & H4 & H5 & H6).
  repeat (split; [assumption|]). clear H1 H2 H3 H4 H5 H6.
  unfold find_route. intros dest Hnamed.
  apply batch_other_destinations, Hnamed.
Qed.

(** X7. Announcement processing never removes a route and never replaces
    it by a worse or equal one: an entry present before the call is still
    there unchanged, or has been replaced by one of strictly lower class or
    of equal class and strictly fewer hops. *)
Theorem announcements_never_worsen_a_route
    (from_node : string) (batch : list RouteData) (now : Q)
    (self : MeshNetwork) (dest : string) (existing : RouteInfo) :
  find_route dest self = Some existing ->
  exists route,
    find_route dest (process_route_announcement from_node batch now self).2
    = Some route /\
    (route = existing \/
     value (metric route) < value (metric existing) \/
     (value (metric route) = value (metric existing) /\
      hop_count route < hop_count existing)).
Proof.
  unfold find_route, process_route_announcement.
  change (routing_table self !! dest = Some existing ->
          exists route,
            routing_table (for_each batch (process_one from_node now) self).2
              !! dest = Some route /\ improves_on route existing).
  revert self existing.
  induction batch as [|rd batch IH]; intros self existing Hexisting.
  - exists existing. split; [exact Hexisting|by left].
  - rewrite for_each_cons.
    destruct (missing_key rd) as [key|] eqn:Hk.
    + rewrite (process_one_missing _ _ _ _ _ Hk).
      exists existing. split; [exact Hexisting|by left].
    + unfold missing_key in Hk.
      destruct (rd_destination rd) as [d|] eqn:Hd; [|discriminate].
      destruct (rd_hop_count rd) as [h|] eqn:Hh; [|discriminate].
      rewrite (process_one_well_formed _ _ _ _ _ _ Hd Hh).
      destruct (after_one_improves from_node now d h
                  (default 0.0%Q (rd_signal_strength rd)) self dest
                  existing Hexisting) as (mid & Hmid & Hle).
      destruct (IH _ _ Hmid) as (route & Hroute & Hcmp).
      exists route. split; [exact Hroute|].
      eapply improves_on_trans; eauto.
Qed.

Lemma announcements_never_worsen_a_route_witness :
  exists route,
    find_route "node-B"
      (process_route_announcement "node-A" [node_a_announcement] 100%Q
         (set_routing_table <["node-B" := existing_good_3]>
            (init "ME" 7%Q))).2
    = Some route /\
    (route = existing_good_3 \/
     value (metric route) < value (metric existing_good_3) \/
     (value (metric route) = value (metric existing_good_3) /\
      hop_count route < hop_count existing_good_3)).
Proof.
  apply (announcements_never_worsen_a_route "node-A" [node_a_announcement]
           100%Q
           (set_routing_table <["node-B" := existing_good_3]>
              (init "ME" 7%Q)) "node-B" existing_good_3).
  reflexivity.
Defined.

(** *** Re-processing a batch *)

Lemma after_one_config from_node now dest announced signal self :
  max_hop_count (after_one from_node now dest announced signal self)
  = max_hop_count self /\
  local_node_id (after_one from_node now dest announced signal self)
  = local_node_id self.
Proof.
  destruct (after_one_frame from_node now dest announced signal self)
    as [table ->].
  split; reflexivity.
Qed.

Lemma beaten_unchanged from_node now route_data self :
  beaten self route_data ->
  process_one from_node now route_data self
  = (batch_outcome [route_data], self).
Proof.
  intros Hbeaten. cbn [batch_outcome].
  destruct (missing_key route_data) as [key|] eqn:Hk.
  - apply process_one_missing, Hk.
  - unfold missing_key in Hk.
    destruct (rd_destination route_data) as [d|] eqn:Hd; [|discriminate].
    destruct (rd_hop_count route_data) as [h|] eqn:Hh; [|discriminate].
    rewrite (process_one_well_formed _ _ _ _ _ _ Hd Hh).
    f_equal. unfold after_one.
    destruct (Hbeaten d h Hd Hh) as [Hhops|[Hlocal|Hlose]].
    + rewrite bool_decide_eq_true_2 by exact Hhops. reflexivity.
    + case_bool_decide; [reflexivity|].
      rewrite bool_decide_eq_true_2 by exact Hlocal. reflexivity.
    + repeat case_bool_decide; try reflexivity.
      rewrite Hlose. reflexivity.
Qed.

Lemma beaten_after from_node now route_data self :
  beaten (process_one from_node now route_data self).2 route_data.
Proof.
  intros d h Hd Hh.
  rewrite (process_one_well_formed _ _ _ _ _ _ Hd Hh). cbn [snd].
  destruct (after_one_config from_node now d h
              (default 0.0%Q (rd_signal_strength route_data)) self)
    as [-> ->].
  destruct (decide (max_hop_count self < h + 1)) as [Hhops|Hhops];
    [by left|].
  destruct (decide (d = local_node_id self)) as [Hlocal|Hlocal];
    [by right; left|].
  right; right. unfold after_one.
  rewrite bool_decide_eq_false_2 by exact Hhops.
  rewrite bool_decide_eq_false_2 by exact Hlocal.
  destruct (wins (routing_table self !! d) _ _) eqn:Hw; [|exact Hw].
  unfold set_routing_table. cbn [routing_table].
  rewrite lookup_insert_eq. cbn [wins].
  destruct (_is_better_route _ _ _) eqn:Hb; [|reflexivity].
  apply is_better_route_spec in Hb.
  unfold new_route in Hb. cbn [metric hop_count] in Hb. lia.
Qed.

Lemma beaten_preserved from_node now other route_data self :
  beaten self route_data ->
  beaten (process_one from_node now other self).2 route_data.
Proof.
  intros Hbeaten.
  destruct (missing_key other) as [key|] eqn:Hk.
  { rewrite (process_one_missing _ _ _ _ _ Hk). exact Hbeaten. }
  unfold missing_key in Hk.
  destruct (rd_destination other) as [d'|] eqn:Hd'; [|discriminate].
  destruct (rd_hop_count other) as [h'|] eqn:Hh'; [|discriminate].
  rewrite (process_one_well_formed _ _ _ _ _ _ Hd' Hh'). cbn [snd].
  intros d h Hd Hh.
  destruct (after_one_config from_node now d' h'
              (default 0.0%Q (rd_signal_strength other)) self)
    as [-> ->].
  destruct (Hbeaten d h Hd Hh) as [Hhops|[Hlocal|Hlose]];
    [by left|by right; left|].
  right; right.
  destruct (routing_table self !! d) as [e|] eqn:He; [|discriminate].
  destruct (after_one_improves from_node now d' h'
              (default 0.0%Q (rd_signal_strength other)) self d e He)
    as (e' & -> & Himp).
  cbn [wins] in Hlose |- *.
  destruct (_is_better_route _ _ e') eqn:Hb; [|reflexivity].
  apply is_better_route_spec in Hb.
  assert (Hnot : ~ (value (_calculate_metric
                             (default 0.0%Q (rd_signal_strength route_data))
                             (h + 1)) < value (metric e) \/
                    (value (_calculate_metric
                              (default 0.0%Q (rd_signal_strength route_data))
                              (h + 1)) = value (metric e) /\
                     h + 1 < hop_count e))).
  { intros Hyes. apply is_better_route_spec in Hyes. congruence. }
  destruct Himp as [->|Himp]; [contradiction|]. lia.
Qed.

Lemma batch_preserves_beaten from_node now batch route_data self :
  beaten self route_data ->
  beaten (for_each batch (process_one from_node now) self).2 route_data.
Proof.
  revert self. induction batch as [|rd batch IH]; intros self Hbeaten;
    [exact Hbeaten|].
  rewrite for_each_cons.
  pose proof (beaten_preserved from_node now rd route_data self Hbeaten)
    as Hnext.
  destruct (process_one from_node now rd self) as [[[]|e] self'];
    [apply IH|]; exact Hnext.
Qed.

Lemma first_pass from_node now batch self :
  Forall (beaten (for_each batch (process_one from_node now) self).2)
         (processed batch)
  /\ (for_each batch (process_one from_node now) self).1
     = batch_outcome batch.
Proof.
  revert self. induction batch as [|rd batch IH]; intros self.
  - split; [constructor|reflexivity].
  - rewrite for_each_cons. cbn [processed batch_outcome].
    destruct (missing_key rd) as [key|] eqn:Hk.
    + rewrite (process_one_missing _ _ _ _ _ Hk).
      split; [constructor|reflexivity].
    + pose proof (beaten_after from_node now rd self) as Hrd.
      unfold missing_key in Hk.
      destruct (rd_destination rd) as [d|] eqn:Hd; [|discriminate].
      destruct (rd_hop_count rd) as [h|] eqn:Hh; [|discriminate].
      rewrite (process_one_well_formed _ _ _ _ _ _ Hd Hh) in Hrd |- *.
      cbn [snd] in Hrd. destruct (IH (after_one from_node now d h
                 (default 0.0%Q (rd_signal_strength rd)) self))
        as [Hrest Hout].
      split; [|exact Hout].
      constructor; [|exact Hrest].
      apply batch_preserves_beaten, Hrd.
Qed.

Lemma second_pass from_node now batch self :
  Forall (beaten self) (processed batch) ->
  for_each batch (process_one from_node now) self
  = (batch_outcome batch, self).
Proof.
  induction batch as [|rd batch IH]; intros Hall; [reflexivity|].
  rewrite for_each_cons. cbn [processed batch_outcome] in *.
  destruct (missing_key rd) as [key|] eqn:Hk.
  - rewrite (process_one_missing _ _ _ _ _ Hk). reflexivity.
  - apply Forall_cons in Hall as [Hrd Hrest].
    rewrite (beaten_unchanged _ _ _ _ Hrd). cbn [batch_outcome].
    rewrite Hk. apply IH, Hrest.
Qed.

(** X8. Processing a batch a second time, from any sender and at any
    later clock reading, changes nothing: the state is the one the first
    call left (so no [last_updated] is refreshed) and the call ends the
    way the first did. *)
Theorem reprocessing_a_batch_is_a_no_op
    (from1 from2 : string) (now1 now2 : Q) (batch : list RouteData)
    (self : MeshNetwork) :
  process_route_announcement from2 batch now2
    (process_route_announcement from1 batch now1 self).2
  = process_route_announcement from1 batch now1 self.
Proof.
  unfold process_route_announcement.
  destruct (first_pass from1 now1 batch self) as [Hall Hout].
  rewrite (second_pass from2 now2 batch _ Hall), <- Hout.
  destruct (for_each batch _ self); reflexivity.
Qed.

(** X9. [_is_better_route] compares routes by a strict order: no route
    beats itself, two routes never beat each other, and beating is
    transitive. *)
Theorem is_better_route_strict_order (a b c : RouteInfo) :
  _is_better_route (metric a) (hop_count a) a = false /\
  (_is_better_route (metric a) (hop_count a) b = true ->
   _is_better_route (metric b) (hop_count b) a = false) /\
  (_is_better_route (metric a) (hop_count a) b = true ->
   _is_better_route (metric b) (hop_count b) c = true ->
   _is_better_route (metric a) (hop_count a) c = true).
Proof.
  assert (Hfalse : forall x y,
            ~ (value (metric x) < value (metric y) \/
               (value (metric x) = value (metric y) /\
                hop_count x < hop_count y)) ->
            _is_better_route (metric x) (hop_count x) y = false).
  { intros x y Hnot.
    destruct (_is_better_route _ _ y) eqn:Hb; [|reflexivity].
    apply is_better_route_spec in Hb. contradiction. }
  split; [apply Hfalse; lia|]. split.
  - intros Hab%is_better_route_spec. apply Hfalse. lia.
  - intros Hab%is_better_route_spec Hbc%is_better_route_spec.
    apply is_better_route_spec. lia.
Qed.

Lemma is_better_route_strict_order_witness :
  _is_better_route GOOD 2 existing_good_3 = true /\
  _is_better_route GOOD 3
    (mkRouteInfo "node-B" "node-A" 2 GOOD 50%Q 30%Q) = false.
Proof.
  split; [reflexivity|].
  apply (is_better_route_strict_order
           (mkRouteInfo "node-B" "node-A" 2 GOOD 50%Q 30%Q)
           existing_good_3 existing_good_3).
  reflexivity.
Defined.

(** ** Invariants of every reachable state *)

(** A property of table entries that every newly built route has is kept
    by a whole batch. *)
Lemma batch_table_invariant (Q : string -> RouteInfo -> Prop)
    from_node now batch self :
  (forall dest announced signal,
     announced + 1 <= max_hop_count self ->
     dest <> local_node_id self ->
     Q dest (new_route from_node now dest (announced + 1) signal)) ->
  (forall dest route, routing_table self !! dest = Some route ->
                      Q dest route) ->
  forall dest route,
    routing_table (process_route_announcement from_node batch now self).2
      !! dest = Some route ->
    Q dest route.
Proof.
  unfold process_route_announcement. revert self.
  induction batch as [|rd batch IH]; intros self Hnew Hold; [exact Hold|].
  rewrite for_each_cons.
  destruct (missing_key rd) as [key|] eqn:Hk.
  { rewrite (process_one_missing _ _ _ _ _ Hk). exact Hold. }
  unfold missing_key in Hk.
  destruct (rd_destination rd) as [d|] eqn:Hd; [|discriminate].
  destruct (rd_hop_count rd) as [h|] eqn:Hh; [|discriminate].
  rewrite (process_one_well_formed _ _ _ _ _ _ Hd Hh).
  destruct (after_one_config from_node now d h
              (default 0.0%Q (rd_signal_strength rd)) self) as [Hmax Hloc].
  apply IH.
  - rewrite Hmax, Hloc. exact Hnew.
  - unfold after_one.
    case_bool_decide as Hhops; [exact Hold|].
    case_bool_decide as Hlocal; [exact Hold|].
    destruct (wins _ _ _); [|exact Hold].
    intros dest route. unfold set_routing_table. cbn [routing_table].
    destruct (decide (d = dest)) as [<-|Hne].
    + rewrite lookup_insert_eq. intros [= <-]. apply Hnew; [lia|exact Hlocal].
    + rewrite lookup_insert_ne by exact Hne. apply Hold.
Qed.

Lemma cleanup_stale_nodes_config now self :
  max_hop_count (_cleanup_stale_nodes now self) = max_hop_count self /\
  local_node_id (_cleanup_stale_nodes now self) = local_node_id self.
Proof.
  unfold _cleanup_stale_nodes. rewrite foldl_delete_nodes.
  split; reflexivity.
Qed.

(** The facts carried along the induction over [reachable]. *)
Lemma reachable_invariants (self : MeshNetwork) :
  reachable self ->
  max_hop_count self = 5 /\
  keyed_by_destination self /\
  (forall dest route,
     routing_table self !! dest = Some route -> hop_count route <= 5) /\
  nodes_are_neighbors self.
Proof.
  induction 1 as [cs now
                 |self cs id signal t_seen t_route _ (Hmax & Hkey & Hhop & Hdom & Hnode)
                 |self from_node batch now _ (Hmax & Hkey & Hhop & Hdom & Hnode)
                 |self now _ (Hmax & Hkey & Hhop & Hdom & Hnode)
                 |self now _ (Hmax & Hkey & Hhop & Hdom & Hnode)].
  - (* init *)
    split; [reflexivity|]. split; [|split; [|split]].
    + intros d r Hr. cbn in Hr. by rewrite lookup_empty in Hr.
    + intros d r Hr. cbn in Hr. by rewrite lookup_empty in Hr.
    + cbn. apply dom_empty_L.
    + intros d n Hn. cbn in Hn. by rewrite lookup_empty in Hn.
  - (* add_neighbor *)
    unfold add_neighbor, set_routing_table, set_neighbor_nodes, set_nodes.
    split; [exact Hmax|]. split; [|split; [|split]].
    + intros d r. cbn [routing_table].
      destruct (decide (id = d)) as [<-|Hne].
      * rewrite lookup_insert_eq. by intros [= <-].
      * rewrite lookup_insert_ne by exact Hne. apply Hkey.
    + intros d r. cbn [routing_table].
      destruct (decide (id = d)) as [<-|Hne].
      * rewrite lookup_insert_eq. intros [= <-]. simpl. lia.
      * rewrite lookup_insert_ne by exact Hne. apply Hhop.
    + cbn [nodes neighbor_nodes]. rewrite dom_insert_L, Hdom.
      apply union_comm_L.
    + intros d n. cbn [nodes].
      destruct (decide (id = d)) as [<-|Hne].
      * rewrite lookup_insert_eq. by intros [= <-].
      * rewrite lookup_insert_ne by exact Hne. apply Hnode.
  - (* process_route_announcement *)
    destruct (for_each_frame from_node now batch self) as [table Hframe].
    unfold process_route_announcement in *.
    split; [rewrite Hframe; exact Hmax|]. split; [|split; [|split]].
    + intros d r. apply (batch_table_invariant
                           (fun d r => destination r = d)
                           from_node now batch self); [|exact Hkey].
      reflexivity.
    + intros d r. apply (batch_table_invariant
                           (fun _ r => hop_count r <= 5)
                           from_node now batch self); [|exact Hhop].
      intros dest announced signal Hle _. simpl. lia.
    + rewrite Hframe. exact Hdom.
    + rewrite Hframe. exact Hnode.
  - (* _cleanup_stale_routes *)
    assert (Hsub : forall d r,
              routing_table (_cleanup_stale_routes now self) !! d = Some r ->
              routing_table self !! d = Some r).
    { intros d r. rewrite lookup_cleanup_stale_routes.
      destruct (routing_table self !! d); [|discriminate].
      by case_decide. }
    destruct (cleanup_stale_routes_frame now self) as [table Hframe].
    split; [rewrite Hframe; exact Hmax|]. split; [|split; [|split]].
    + intros d r Hr. apply Hkey, Hsub, Hr.
    + intros d r Hr. eapply Hhop, Hsub, Hr.
    + rewrite Hframe. exact Hdom.
    + rewrite Hframe. exact Hnode.
  - (* _cleanup_stale_nodes *)
    destruct (cleanup_stale_nodes_config now self) as [Hmax' _].
    split; [rewrite Hmax'; exact Hmax|]. split; [|split; [|split]].
    + intros d r. rewrite cleanup_stale_nodes_routing_table. apply Hkey.
    + intros d r. rewrite cleanup_stale_nodes_routing_table. apply Hhop.
    + apply set_eq. intros id.
      rewrite elem_of_dom, elem_of_cleanup_stale_nodes,
        lookup_cleanup_stale_nodes, <- Hdom, elem_of_dom.
      destruct (nodes self !! id) as [n|] eqn:Hn.
      * case_decide as Hstale.
        -- split; [by intros [? ?]|]. intros [_ Hnot]. exfalso.
           apply Hnot. by exists n.
        -- split; [|by eauto]. intros _. split; [by eauto|].
           intros (n' & [= <-] & Hs). contradiction.
      * split; [by intros [? ?]|]. by intros [[? ?] _].
    + intros d n. rewrite lookup_cleanup_stale_nodes.
      destruct (nodes self !! d) as [n'|] eqn:Hn; [|discriminate].
      case_decide; [discriminate|]. intros [= <-]. by apply Hnode.
Qed.

Lemma sample_reachable_is_reachable : reachable sample_reachable.
Proof. apply reach_announcement, reach_add_neighbor, reach_init. Defined.

(** X10. In every reachable state each routing-table entry is filed under
    its own destination: [find_route d] never returns a route to some
    other node. *)
Theorem reachable_routes_keyed_by_destination
    (self : MeshNetwork) (dest : string) (route : RouteInfo) :
  reachable self ->
  find_route dest self = Some route ->
  destination route = dest.
Proof.
  intros Hreach Hroute.
  destruct (reachable_invariants self Hreach) as (_ & Hkey & _).
  exact (Hkey dest route Hroute).
Qed.

Lemma reachable_routes_keyed_by_destination_witness :
  destination (new_route "node-A" 100%Q "node-B" 2 0.9%Q) = "node-B".
Proof.
  apply (reachable_routes_keyed_by_destination sample_reachable "node-B").
  - exact sample_reachable_is_reachable.
  - reflexivity.
Defined.

(** X11. In every reachable state [max_hop_count] is still 5 and no
    installed route has a hop count above it, whichever operation
    installed it. *)
Theorem reachable_hop_count_bounded
    (self : MeshNetwork) (dest : string) (route : RouteInfo) :
  reachable self ->
  find_route dest self = Some route ->
  max_hop_count self = 5 /\ hop_count route <= max_hop_count self.
Proof.
  intros Hreach Hroute.
  destruct (reachable_invariants self Hreach) as (Hmax & _ & Hhop & _).
  split; [exact Hmax|]. rewrite Hmax. exact (Hhop dest route Hroute).
Qed.

Lemma reachable_hop_count_bounded_witness :
  max_hop_count sample_reachable = 5 /\
  hop_count (new_route "node-A" 100%Q "node-B" 2 0.9%Q)
  <= max_hop_count sample_reachable.
Proof.
  apply (reachable_hop_count_bounded sample_reachable "node-B").
  - exact sample_reachable_is_reachable.
  - reflexivity.
Defined.

(** X12. In every reachable state the node map holds exactly the members
    of the neighbour set, and every stored node is a one-hop node filed
    under its own id: destinations learned from announcements never enter
    the node map. *)
Theorem reachable_nodes_are_the_neighbors (self : MeshNetwork) :
  reachable self ->
  dom (nodes self) = neighbor_nodes self /\
  forall id node,
    nodes self !! id = Some node ->
    node_id node = id /\ node_hop_count node = 1.
Proof.
  intros Hreach.
  destruct (reachable_invariants self Hreach) as (_ & _ & _ & Hnodes).
  exact Hnodes.
Qed.

Lemma reachable_nodes_are_the_neighbors_witness :
  dom (nodes sample_reachable) = neighbor_nodes sample_reachable /\
  forall id node,
    nodes sample_reachable !! id = Some node ->
    node_id node = id /\ node_hop_count node = 1.
Proof.
  apply (reachable_nodes_are_the_neighbors sample_reachable).
  exact sample_reachable_is_reachable.
Defined.

(** ** Outgoing announcements *)

Lemma elem_of_get_route_announcements clock self ann :
  ann ∈ get_route_announcements clock self <->
  exists dest route,
    routing_table self !! dest = Some route /\
    announce self clock (dest, route) = Some ann.
Proof.
  unfold get_route_announcements. rewrite list_elem_of_omap. split.
  - intros ([dest route] & Hin & Hann).
    apply elem_of_map_to_list in Hin. by exists dest, route.
  - intros (dest & route & Hroute & Hann).
    exists (dest, route). split; [|exact Hann].
    by apply elem_of_map_to_list.
Qed.

Lemma announce_Some self clock dest route ann :
  announce self clock (dest, route) = Some ann <->
  ~ (route_update_interval self * 2 < clock dest - last_updated route)%Q /\
  ann = mkAnnouncement dest (hop_count route) (value (metric route))
          (bandwidth_estimate route) (last_updated route).
Proof.
  unfold announce. cbn [fst snd].
  destruct (decide _) as [Hold|Hfresh]; split.
  - discriminate.
  - intros [Hnot _]. contradiction.
  - intros [= <-]. split; [exact Hfresh|reflexivity].
  - intros [_ ->]. reflexivity.
Qed.

(** X13. [get_route_announcements] announces exactly the table entries
    whose age at the clock reading of their iteration is at most twice
    [route_update_interval] (an entry aged exactly twice the interval is
    still announced). Each announcement carries the entry's key, hop
    count, class number and timestamp, and the entry's bandwidth estimate
    in the signal-strength slot. *)
Theorem route_announcements_are_the_fresh_entries
    (clock : string -> Q) (self : MeshNetwork) (ann : Announcement) :
  ann ∈ get_route_announcements clock self <->
  exists route,
    find_route (ann_destination ann) self = Some route /\
    (clock (ann_destination ann) - last_updated route
     <= route_update_interval self * 2)%Q /\
    ann_hop_count ann = hop_count route /\
    ann_metric ann = value (metric route) /\
    ann_signal_strength ann = bandwidth_estimate route /\
    ann_timestamp ann = last_updated route.
Proof.
  rewrite elem_of_get_route_announcements. unfold find_route. split.
  - intros (dest & route & Hroute & Hann).
    apply announce_Some in Hann as [Hfresh ->]. cbn.
    exists route. split; [exact Hroute|].
    split; [apply Qnot_lt_le, Hfresh|]. repeat split.
  - intros (route & Hroute & Hfresh & Hh & Hm & Hs & Ht).
    exists (ann_destination ann), route. split; [exact Hroute|].
    apply announce_Some. split; [apply Qle_not_lt, Hfresh|].
    destruct ann; cbn in *. congruence.
Qed.

(** X15. Withholding comes before eviction. With a non-negative
    [route_update_interval], an entry announced at clock reading [now] is
    still in the table after a sweep at [now]; an entry aged more than
    twice but at most three times the interval is kept by the sweep yet
    not announced. *)
Theorem announced_routes_survive_the_sweep
    (now : Q) (self : MeshNetwork) (dest : string) (route : RouteInfo) :
  (0 <= route_update_interval self)%Q ->
  find_route dest self = Some route ->
  ((exists ann, ann ∈ get_route_announcements (fun _ => now) self /\
                ann_destination ann = dest) ->
   find_route dest (_cleanup_stale_routes now self) = Some route)
  /\
  ((route_update_interval self * 2 < now - last_updated route)%Q ->
   (now - last_updated route <= route_update_interval self * 3)%Q ->
   find_route dest (_cleanup_stale_routes now self) = Some route /\
   forall ann, ann ∈ get_route_announcements (fun _ => now) self ->
               ann_destination ann <> dest).
Proof.
  unfold find_route. intros Hint Hroute.
  assert (Hkeep : (now - last_updated route
                   <= route_update_interval self * 3)%Q ->
                  routing_table (_cleanup_stale_routes now self) !! dest
                  = Some route).
  { intros Hage. rewrite lookup_cleanup_stale_routes, Hroute.
    rewrite decide_False; [reflexivity|].
    unfold route_is_stale. apply Qle_not_lt, Hage. }
  split.
  - intros (ann & Hin & <-).
    apply elem_of_get_route_announcements in Hin
      as (d & r & Hr & [Hfresh ->]%announce_Some).
    cbn in Hroute, Hkeep |- *. rewrite Hr in Hroute.
    injection Hroute as ->. apply Hkeep.
    eapply Qle_trans; [apply Qnot_lt_le, Hfresh|].
    rewrite !(Qmult_comm (route_update_interval self)).
    apply Qmult_le_compat_r; [discriminate|exact Hint].
  - intros Hold Hage. split; [apply Hkeep, Hage|].
    intros ann Hin Hdest.
    apply elem_of_get_route_announcements in Hin
      as (d & r & Hr & [Hfresh ->]%announce_Some).
    cbn in Hdest. subst d. rewrite Hr in Hroute.
    injection Hroute as ->. contradiction.
Qed.

Lemma announced_routes_survive_the_sweep_witness :
  find_route "node-B"
    (_cleanup_stale_routes (1000 - 40)%Q
       (set_routing_table <["node-B" := old_route]> (init "ME" 7%Q)))
  = Some old_route.
Proof.
  apply (proj1 (announced_routes_survive_the_sweep (1000 - 40)%Q
                  (set_routing_table <["node-B" := old_route]>
                     (init "ME" 7%Q))
                  "node-B" old_route ltac:(discriminate) eq_refl)).
  exists (mkAnnouncement "node-B" 2 2 30%Q (1000 - 91)%Q).
  split; [|reflexivity].
  apply elem_of_get_route_announcements.
  exists "node-B", old_route. split; reflexivity.
Defined.

(** ** Neighbour discovery *)

(** X17. After [add_neighbor] the node is a neighbour whose route is the
    direct one-hop route through itself, whatever entry the table held
    for it before (the better-route rule is not consulted); the routes,
    nodes and neighbour membership of every other id are untouched. *)
Theorem add_neighbor_installs_direct_route
    (cs id : string) (signal t_seen t_route : Q) (self : MeshNetwork) :
  let self' := add_neighbor cs id signal t_seen t_route self in
  find_route id self'
  = Some {| destination := id;
            next_hop := id;
            hop_count := 1;
            metric := _calculate_metric signal 1;
            last_updated := t_route;
            bandwidth_estimate := _estimate_bandwidth signal |}
  /\ get_next_hop id self' = Some id
  /\ id ∈ neighbor_nodes self'
  /\ forall other,
       other <> id ->
       find_route other self' = find_route other self /\
       nodes self' !! other = nodes self !! other /\
       (other ∈ neighbor_nodes self' <-> other ∈ neighbor_nodes self).
Proof.
  intros self'. unfold self', get_next_hop, find_route, add_neighbor,
    set_routing_table, set_neighbor_nodes, set_nodes.
  cbn [routing_table nodes neighbor_nodes].
  rewrite lookup_insert_eq.
  split; [reflexivity|]. split; [reflexivity|].
  split; [apply elem_of_union_r, elem_of_singleton; reflexivity|].
  intros other Hne.
  rewrite !lookup_insert_ne by congruence.
  split; [reflexivity|]. split; [reflexivity|].
  rewrite elem_of_union, elem_of_singleton. tauto.
Qed.

(** ** The routing-table invariant, operation by operation *)

Lemma init_route_invariant cs now : route_invariant (init cs now).
Proof. intros d r Hr. cbn in Hr. by rewrite lookup_empty in Hr. Qed.

(** X18. [process_route_announcement] keeps the routing-table invariant
    (no entry for the local node id, no hop count above [max_hop_count]),
    whatever the batch and also when it raises half-way. *)
Theorem announcements_keep_route_invariant
    (from_node : string) (batch : list RouteData) (now : Q)
    (self : MeshNetwork) :
  route_invariant self ->
  route_invariant (process_route_announcement from_node batch now self).2.
Proof.
  apply process_route_announcement_preserves_invariant.
Qed.

Lemma announcements_keep_route_invariant_witness :
  route_invariant
    (process_route_announcement "node-A"
       [node_a_announcement; no_destination_announcement] 100%Q
       (init "ME" 7%Q)).2.
Proof.
  apply (announcements_keep_route_invariant "node-A"
           [node_a_announcement; no_destination_announcement] 100%Q
           (init "ME" 7%Q)).
  apply init_route_invariant.
Defined.

(** X19. [add_neighbor] keeps the routing-table invariant provided the
    neighbour's id is not the local node id and [max_hop_count] is at
    least 1; it performs neither check itself. *)
Theorem add_neighbor_keeps_route_invariant
    (cs id : string) (signal t_seen t_route : Q) (self : MeshNetwork) :
  id <> local_node_id self ->
  1 <= max_hop_count self ->
  route_invariant self ->
  route_invariant (add_neighbor cs id signal t_seen t_route self).
Proof.
  apply add_neighbor_preserves_invariant.
Qed.

Lemma add_neighbor_keeps_route_invariant_witness :
  route_invariant
    (add_neighbor "REL-1" "node-A" 0.85%Q 90%Q 90%Q (init "ME" 7%Q)).
Proof.
  apply (add_neighbor_keeps_route_invariant "REL-1" "node-A" 0.85%Q 90%Q
           90%Q (init "ME" 7%Q)).
  - vm_compute. discriminate.
  - vm_compute. discriminate.
  - apply init_route_invariant.
Defined.

(** X20. A maintenance pass keeps the routing-table invariant: the
    sweeps only delete entries. *)
Theorem maintenance_keeps_route_invariant
    (t_routes t_nodes : Q) (self : MeshNetwork) :
  route_invariant self ->
  route_invariant (maintenance_pass t_routes t_nodes self).
Proof.
  apply maintenance_pass_preserves_invariant.
Qed.

Lemma maintenance_keeps_route_invariant_witness :
  route_invariant
    (maintenance_pass 1000%Q 1000%Q
       (add_neighbor "REL-1" "node-A" 0.85%Q 90%Q 90%Q (init "ME" 7%Q))).
Proof.
  apply (maintenance_keeps_route_invariant 1000%Q 1000%Q
           (add_neighbor "REL-1" "node-A" 0.85%Q 90%Q 90%Q
              (init "ME" 7%Q))).
  apply add_neighbor_preserves_invariant;
    [vm_compute; discriminate|vm_compute; discriminate|].
  apply init_route_invariant.
Defined.

(** ** The module-level instance *)

(** X21. [get_mesh_instance] keeps one engine per module: once an
    instance exists every call returns it and ignores the callsign, the
    first non-empty callsign creates it, and a call without a callsign or
    with an empty one creates nothing. *)
Theorem mesh_instance_is_a_singleton :
  (forall instance cs now,
     get_mesh_instance cs now (Some instance) = Some instance) /\
  (forall cs now cs' now',
     cs <> "" ->
     get_mesh_instance cs' now'
       (get_mesh_instance (Some cs) now None)
     = Some (init cs now)) /\
  (forall now,
     get_mesh_instance None now None = None /\
     get_mesh_instance (Some "") now None = None).
Proof.
  split; [|split].
  - intros instance cs now. unfold get_mesh_instance.
    destruct cs; reflexivity.
  - intros cs now cs' now' Hcs. unfold get_mesh_instance.
    rewrite decide_False by exact Hcs. destruct cs'; reflexivity.
  - intros now. split; reflexivity.
Qed.

Lemma mesh_instance_is_a_singleton_witness :
  get_mesh_instance (Some "OTHER") 9%Q
    (get_mesh_instance (Some "ME") 7%Q None)
  = Some (init "ME" 7%Q).
Proof.
  apply (proj1 (proj2 mesh_instance_is_a_singleton) "ME" 7%Q
           (Some "OTHER") 9%Q).
  discriminate.
Defined.

(** ** Status snapshot *)

Lemma name_inj (m1 m2 : RouteMetric) : name m1 = name m2 -> m1 = m2.
Proof. destruct m1, m2; simpl; intros H; try reflexivity; discriminate. Qed.

Lemma count_route_lookup (counts : gmap string Z) (route : RouteInfo) m :
  default 0 (count_route counts route !! name m)
  = default 0 (counts !! name m) + (if decide (metric route = m) then 1 else 0).
Proof.
  unfold count_route. cbv zeta.
  destruct (decide (metric route = m)) as [->|Hne].
  - rewrite lookup_insert_eq. reflexivity.
  - rewrite lookup_insert_ne; [simpl; lia|].
    intros Heq. apply Hne, name_inj, Heq.
Qed.

Lemma foldl_count_route_lookup (l : list RouteInfo) (counts : gmap string Z) m :
  default 0 (foldl count_route counts l !! name m)
  = default 0 (counts !! name m)
    + Z.of_nat (length (filter (fun r => metric r = m) l)).
Proof.
  revert counts. induction l as [|r l IH]; intros counts.
  - cbn [foldl]. rewrite filter_nil. cbn [length]. lia.
  - cbn [foldl]. rewrite IH, count_route_lookup, filter_cons.
    destruct (decide (metric r = m)); cbn [length]; lia.
Qed.

Lemma foldl_count_route_positive (l : list RouteInfo) (counts : gmap string Z) :
  (forall k v, counts !! k = Some v -> 1 <= v) ->
  forall k v, foldl count_route counts l !! k = Some v -> 1 <= v.
Proof.
  revert counts. induction l as [|r l IH]; intros counts Hpos;
    [exact Hpos|].
  cbn [foldl]. apply IH. intros k v. unfold count_route. cbv zeta.
  destruct (decide (name (metric r) = k)) as [<-|Hne].
  - rewrite lookup_insert_eq. intros [= <-].
    destruct (counts !! name (metric r)) as [v0|] eqn:Hv0; simpl; [|lia].
    specialize (Hpos _ _ Hv0). lia.
  - rewrite lookup_insert_ne by exact Hne. apply Hpos.
Qed.

Lemma length_by_metric (l : list RouteInfo) :
  length l
  = (length (filter (fun r => metric r = EXCELLENT) l)
     + length (filter (fun r => metric r = GOOD) l)
     + length (filter (fun r => metric r = FAIR) l)
     + length (filter (fun r => metric r = POOR) l)
     + length (filter (fun r => metric r = UNREACHABLE) l))%nat.
Proof.
  induction l as [|r l IH]; [reflexivity|].
  rewrite !filter_cons. cbn [length]. rewrite IH.
  destruct (metric r); repeat (case_decide; try discriminate);
    try congruence; cbn [length]; lia.
Qed.

(** X22. In the status snapshot the active-node count lies between 0 and
    the total node count; the per-class dict holds, under each class
    name, the number of routes of that class and has no key for a class
    without routes; and the five per-class counts add up to the route
    count. *)
Theorem mesh_status_counts (current_time : Q) (self : MeshNetwork) :
  let stats := network_stats (get_mesh_status current_time self) in
  let routes_of m :=
    filter (fun r => metric r = m) (map_to_list (routing_table self)).*2 in
  0 <= active_nodes stats <= total_nodes stats /\
  (forall m,
     default 0 (route_metrics stats !! name m)
     = Z.of_nat (length (routes_of m)) /\
     (route_metrics stats !! name m = None <-> routes_of m = [])) /\
  default 0 (route_metrics stats !! "EXCELLENT")
  + default 0 (route_metrics stats !! "GOOD")
  + default 0 (route_metrics stats !! "FAIR")
  + default 0 (route_metrics stats !! "POOR")
  + default 0 (route_metrics stats !! "UNREACHABLE")
  = route_count stats.
Proof.
  intros stats routes_of. unfold stats, get_mesh_status.
  cbn [network_stats active_nodes total_nodes route_metrics route_count].
  assert (Hcount : forall m,
            default 0 (foldl count_route ∅
                         (map_to_list (routing_table self)).*2 !! name m)
            = Z.of_nat (length (routes_of m))).
  { intros m. rewrite foldl_count_route_lookup, lookup_empty.
    unfold routes_of. apply Z.add_0_l. }
  split; [|split].
  - split; [lia|]. apply inj_le.
    etransitivity; [apply length_filter|].
    rewrite length_fmap, length_map_to_list. reflexivity.
  - intros m. split; [apply Hcount|].
    specialize (Hcount m). split.
    + intros Hnone. rewrite Hnone in Hcount. simpl in Hcount.
      apply length_zero_iff_nil. lia.
    + intros Hnil. rewrite Hnil in Hcount. simpl in Hcount.
      destruct (foldl count_route ∅ _ !! name m) as [v|] eqn:Hv;
        [|reflexivity].
      exfalso. simpl in Hcount. subst v.
      assert (Hempty : forall k v,
                (∅ : gmap string Z) !! k = Some v -> 1 <= v)
        by (intros k v H; by rewrite lookup_empty in H).
      pose proof (foldl_count_route_positive _ ∅ Hempty _ _ Hv). lia.
  - change "EXCELLENT" with (name EXCELLENT). change "GOOD" with (name GOOD).
    change "FAIR" with (name FAIR). change "POOR" with (name POOR).
    change "UNREACHABLE" with (name UNREACHABLE).
    rewrite !Hcount.
    rewrite <- length_map_to_list, <- (length_fmap snd).
    rewrite (length_by_metric (map_to_list (routing_table self)).*2).
    unfold routes_of. lia.
Qed.

(** ** Maintenance sweeps, composed *)

Lemma MeshNetwork_ext (a b : MeshNetwork) :
  local_callsign a = local_callsign b ->
  local_node_id a = local_node_id b ->
  nodes a = nodes b ->
  routing_table a = routing_table b ->
  neighbor_nodes a = neighbor_nodes b ->
  route_update_interval a = route_update_interval b ->
  node_timeout a = node_timeout b ->
  max_hop_count a = max_hop_count b ->
  running a = running b ->
  a = b.
Proof. destruct a, b; simpl; intros; subst; reflexivity. Qed.

Lemma cleanup_stale_nodes_frame (now : Q) (self : MeshNetwork) :
  exists node_map neighbors,
    _cleanup_stale_nodes now self
    = set_neighbor_nodes (fun _ => neighbors)
        (set_nodes (fun _ => node_map) self).
Proof.
  unfold _cleanup_stale_nodes. rewrite foldl_delete_nodes.
  do 2 eexists. destruct self; reflexivity.
Qed.

Lemma maintenance_pass_frame t_routes t_nodes self :
  exists table node_map neighbors,
    maintenance_pass t_routes t_nodes self
    = set_neighbor_nodes (fun _ => neighbors)
        (set_nodes (fun _ => node_map)
           (set_routing_table (fun _ => table) self)).
Proof.
  unfold maintenance_pass.
  destruct (cleanup_stale_routes_frame t_routes self) as [table ->].
  destruct (cleanup_stale_nodes_frame t_nodes
              (set_routing_table (fun _ => table) self))
    as (node_map & neighbors & ->).
  by exists table, node_map, neighbors.
Qed.

Lemma maintenance_pass_routes t_routes t_nodes self dest :
  routing_table (maintenance_pass t_routes t_nodes self) !! dest
  = match routing_table self !! dest with
    | Some route =>
        if decide (route_update_interval self * 3
                   < t_routes - last_updated route)%Q
        then None else Some route
    | None => None
    end.
Proof.
  unfold maintenance_pass.
  rewrite cleanup_stale_nodes_routing_table.
  apply lookup_cleanup_stale_routes.
Qed.

Lemma maintenance_pass_nodes t_routes t_nodes self id :
  nodes (maintenance_pass t_routes t_nodes self) !! id
  = match nodes self !! id with
    | Some node =>
        if decide (node_timeout self < t_nodes - last_seen node)%Q
        then None else Some node
    | None => None
    end.
Proof.
  unfold maintenance_pass.
  destruct (cleanup_stale_routes_frame t_routes self) as [table ->].
  apply (lookup_cleanup_stale_nodes t_nodes
           (set_routing_table (fun _ => table) self) id).
Qed.

Lemma maintenance_pass_neighbors t_routes t_nodes self id :
  id ∈ neighbor_nodes (maintenance_pass t_routes t_nodes self) <->
  id ∈ neighbor_nodes self /\
  ~ exists node, nodes self !! id = Some node /\
                 (node_timeout self < t_nodes - last_seen node)%Q.
Proof.
  unfold maintenance_pass.
  destruct (cleanup_stale_routes_frame t_routes self) as [table ->].
  apply (elem_of_cleanup_stale_nodes t_nodes
           (set_routing_table (fun _ => table) self) id).
Qed.

(** X23. A maintenance pass is idempotent: running it again with the same
    clock readings changes nothing. *)
Theorem maintenance_pass_idempotent
    (t_routes t_nodes : Q) (self : MeshNetwork) :
  maintenance_pass t_routes t_nodes (maintenance_pass t_routes t_nodes self)
  = maintenance_pass t_routes t_nodes self.
Proof.
  set (once := maintenance_pass t_routes t_nodes self).
  assert (Hcfg : route_update_interval once = route_update_interval self /\
                 node_timeout once = node_timeout self).
  { unfold once.
    destruct (maintenance_pass_frame t_routes t_nodes self)
      as (table & node_map & neighbors & ->).
    split; reflexivity. }
  destruct Hcfg as [Hint Htimeout].
  destruct (maintenance_pass_frame t_routes t_nodes once)
    as (table & node_map & neighbors & Hframe).
  apply MeshNetwork_ext; try (rewrite Hframe; reflexivity).
  - apply map_eq. intros id. rewrite maintenance_pass_nodes.
    destruct (nodes once !! id) as [node|] eqn:Hnode; [|reflexivity].
    destruct (decide _) as [Hstale|_]; [|reflexivity].
    exfalso. rewrite Htimeout in Hstale.
    unfold once in Hnode. rewrite maintenance_pass_nodes in Hnode.
    destruct (nodes self !! id) as [node'|]; [|discriminate].
    destruct (decide _) as [?|Hfresh]; [discriminate|].
    injection Hnode as <-. contradiction.
  - apply map_eq. intros dest. rewrite maintenance_pass_routes.
    destruct (routing_table once !! dest) as [route|] eqn:Hroute;
      [|reflexivity].
    destruct (decide _) as [Hstale|_]; [|reflexivity].
    exfalso. rewrite Hint in Hstale.
    unfold once in Hroute. rewrite maintenance_pass_routes in Hroute.
    destruct (routing_table self !! dest) as [route'|]; [|discriminate].
    destruct (decide _) as [?|Hfresh]; [discriminate|].
    injection Hroute as <-. contradiction.
  - apply set_eq. intros id.
    rewrite maintenance_pass_neighbors, Htimeout.
    split; [by intros [? _]|]. intros Hin. split; [exact Hin|].
    intros (node & Hnode & Hstale). unfold once in Hnode.
    rewrite maintenance_pass_nodes in Hnode.
    destruct (nodes self !! id) as [node'|]; [|discriminate].
    destruct (decide _) as [?|Hfresh]; [discriminate|].
    injection Hnode as <-. contradiction.
Qed.

(** X24. Boundary ages. A node whose age is exactly [node_timeout] is kept
    by the sweep although the status snapshot does not count it as active;
    a node the snapshot counts as active at [now] always survives a sweep
    at [now]. *)
Theorem node_boundary_age
    (now : Q) (self : MeshNetwork) (id : string) (node : MeshNode) :
  nodes self !! id = Some node ->
  ((now - last_seen node == node_timeout self)%Q ->
   nodes (_cleanup_stale_nodes now self) !! id = Some node /\
   ~ node_is_active self now node)
  /\
  (node_is_active self now node ->
   nodes (_cleanup_stale_nodes now self) !! id = Some node).
Proof.
  intros Hnode. rewrite lookup_cleanup_stale_nodes, Hnode.
  unfold node_is_stale, node_is_active. split.
  - intros Hage. split.
    + rewrite decide_False; [reflexivity|].
      rewrite Hage. apply Qlt_irrefl.
    + rewrite Hage. apply Qlt_irrefl.
  - intros Hactive. rewrite decide_False; [reflexivity|].
    intros Hstale. exact (Qlt_irrefl _ (Qlt_trans _ _ _ Hactive Hstale)).
Qed.

Lemma node_boundary_age_witness :
  nodes (_cleanup_stale_nodes 1000%Q
           (set_nodes <["node-A" := boundary_node]> (init "ME" 7%Q)))
    !! "node-A" = Some boundary_node
  /\ ~ node_is_active
         (set_nodes <["node-A" := boundary_node]> (init "ME" 7%Q))
         1000%Q boundary_node.
Proof.
  refine (proj1 (node_boundary_age 1000%Q
                   (set_nodes <["node-A" := boundary_node]> (init "ME" 7%Q))
                   "node-A" boundary_node _) _).
  - reflexivity.
  - reflexivity.
Defined.

(** ** One announcement per destination *)

Lemma announced_destinations_come_from_items self clock
    (items : list (string * RouteInfo)) dest :
  dest ∈ ann_destination <$> omap (announce self clock) items ->
  dest ∈ items.*1.
Proof.
  intros (ann & -> & Hin)%list_elem_of_fmap.
  apply list_elem_of_omap in Hin as ([d r] & Hitem & Hann).
  apply announce_Some in Hann as [_ ->]. cbn.
  apply list_elem_of_fmap. by exists (d, r).
Qed.

Lemma announced_destinations_NoDup self clock
    (items : list (string * RouteInfo)) :
  NoDup items.*1 ->
  NoDup (ann_destination <$> omap (announce self clock) items).
Proof.
  induction items as [|[d r] items IH]; intros Hnodup; [constructor|].
  apply NoDup_cons in Hnodup as [Hnotin Hnodup].
  cbn [omap list_omap].
  destruct (announce self clock (d, r)) as [ann|] eqn:Hann;
    [|apply IH, Hnodup].
  apply announce_Some in Hann as [_ ->]. cbn [fmap list_fmap].
  apply NoDup_cons. split; [|apply IH, Hnodup].
  intros Hin. apply Hnotin.
  apply (announced_destinations_come_from_items self clock), Hin.
Qed.

(** X25. [get_route_announcements] never announces a destination twice
    and never returns more announcements than the table has routes; on an
    empty table it returns the empty list. *)
Theorem route_announcements_are_unique_per_destination
    (clock : string -> Q) (self : MeshNetwork) :
  NoDup (ann_destination <$> get_route_announcements clock self) /\
  (length (get_route_announcements clock self)
   <= size (routing_table self))%nat /\
  (routing_table self = ∅ -> get_route_announcements clock self = []).
Proof.
  unfold get_route_announcements. split; [|split].
  - apply announced_destinations_NoDup, NoDup_fst_map_to_list.
  - rewrite <- length_map_to_list.
    generalize (map_to_list (routing_table self)).
    induction l as [|item l IH]; [reflexivity|].
    cbn [omap list_omap].
    destruct (announce self clock item); cbn [length]; lia.
  - intros ->. rewrite map_to_list_empty. reflexivity.
Qed.

(** ** The loop over machine arithmetic *)

Lemma for_each_step {A : Type} (body : A -> M unit) (x : A) (xs : list A)
    (self : MeshNetwork) :
  for_each (x :: xs) body self
  = match body x self with
    | (Returned _, self') => for_each xs body self'
    | (Raised e, self') => (Raised e, self')
    end.
Proof. reflexivity. Qed.

Lemma for_each_append {A : Type} (body : A -> M unit) (pre post : list A)
    (self : MeshNetwork) :
  for_each (pre ++ post) body self
  = match for_each pre body self with
    | (Returned _, self') => for_each post body self'
    | (Raised e, self') => (Raised e, self')
    end.
Proof.
  revert self. induction pre as [|x pre IH]; intros self; [reflexivity|].
  rewrite <- app_comm_cons, !for_each_step.
  destruct (body x self) as [[[]|e] self']; [apply IH|reflexivity].
Qed.

Section MachineLoop.

Context `{MachineFloat}.

Variables (from_node : string) (current_time : Q).


(** The metric raises exactly when the power does. *)
Lemma machine_metric_raises signal hops :
  pow_08 (hops - 1) = None ->
  Machine._calculate_metric signal hops = Raised OverflowError.
Proof. intros Hpow. unfold Machine._calculate_metric. by rewrite Hpow. Qed.

(** For a hop count from 1 up the metric returns, whatever the signal. *)
Lemma machine_metric_returns signal hops :
  1 <= hops <= 2 ^ 1023 ->
  exists m, Machine._calculate_metric signal hops = Returned m.
Proof.
  intros [Hlo Hhi].
  destruct (pow_08_returns (hops - 1)) as [penalty Hpow]; [lia|].
  unfold Machine._calculate_metric. rewrite Hpow. eexists. reflexivity.
Qed.

(** With a zero signal the metric, when it returns, is UNREACHABLE. *)
Lemma machine_metric_zero_signal hops m :
  Machine._calculate_metric 0 hops = Returned m -> m = UNREACHABLE.
Proof.
  unfold Machine._calculate_metric.
  destruct (pow_08 (hops - 1)) as [penalty|]; [|discriminate].
  intros [= <-].
  assert (Hlow : forall c : Q, (0 <= c)%Q ->
                               ~ (fl_lit c < fl_mul 0 penalty)%Q).
  { intros c Hc Hlt. rewrite (fl_mul_zero_l penalty) in Hlt.
    exact (Qlt_not_le _ _ Hlt (fl_lit_nonneg c Hc)). }
  repeat (destruct (decide _) as [Hd|_];
          [exfalso; revert Hd; apply Hlow; discriminate|]).
  reflexivity.
Qed.

(** With a zero signal the bandwidth estimate is the literal floor. *)
Lemma machine_bandwidth_zero_signal :
  Machine._estimate_bandwidth 0 = fl_lit 0.1.
Proof.
  unfold Machine._estimate_bandwidth, py_max.
  destruct (decide _) as [Hlt|_]; [|reflexivity].
  exfalso. rewrite (fl_mul_zero_l (fl_lit 50.0)) in Hlt.
  refine (Qlt_not_le _ _ Hlt (fl_lit_nonneg _ _)). discriminate.
Qed.

Lemma machine_process_one_missing route_data key self :
  missing_key route_data = Some key ->
  Machine.process_one from_node current_time route_data self
  = (Raised (KeyError key), self).
Proof.
  unfold missing_key, Machine.process_one.
  destruct (rd_destination route_data) as [d|],
           (rd_hop_count route_data) as [h|]; intros Hk;
    inversion Hk; reflexivity.
Qed.

(** The loop body on an announcement that has both keys. *)
Lemma machine_process_one_well_formed route_data dest announced self :
  rd_destination route_data = Some dest ->
  rd_hop_count route_data = Some announced ->
  Machine.process_one from_node current_time route_data self
  = if bool_decide (max_hop_count self < announced + 1)
    then (Returned tt, self)
    else if bool_decide (dest = local_node_id self)
    then (Returned tt, self)
    else
      match Machine._calculate_metric
              (default 0%Q (rd_signal_strength route_data)) (announced + 1)
      with
      | Raised e => (Raised e, self)
      | Returned new_metric =>
          (Returned tt,
           if wins (routing_table self !! dest) new_metric (announced + 1)
           then set_routing_table
                  <[dest := {| destination := dest;
                               next_hop := from_node;
                               hop_count := announced + 1;
                               metric := new_metric;
                               last_updated := current_time;
                               bandwidth_estimate :=
                                 Machine._estimate_bandwidth
                                   (default 0%Q
                                      (rd_signal_strength route_data)) |}]>
                  self
           else self)
      end.
Proof.
  intros Hd Hh. unfold Machine.process_one. rewrite Hd, Hh.
  unfold subscript, mbind, M_bind, mret, M_ret, get_self, modify.
  cbn beta iota.
  repeat case_bool_decide; try reflexivity.
  destruct (Machine._calculate_metric _ _) as [m|e]; cbn; [|reflexivity].
  destruct (wins _ _ _); reflexivity.
Qed.

(** When the metric raises, so does the loop body, before it has touched
    the table. *)
Lemma machine_process_one_metric_raises route_data dest announced self e :
  rd_destination route_data = Some dest ->
  rd_hop_count route_data = Some announced ->
  announced + 1 <= max_hop_count self ->
  dest <> local_node_id self ->
  Machine._calculate_metric (default 0%Q (rd_signal_strength route_data))
    (announced + 1) = Raised e ->
  Machine.process_one from_node current_time route_data self
  = (Raised e, self).
Proof.
  intros Hd Hh Hmax Hlocal Hmetric.
  rewrite (machine_process_one_well_formed _ _ _ _ Hd Hh).
  rewrite bool_decide_eq_false_2 by lia.
  rewrite bool_decide_eq_false_2 by exact Hlocal.
  by rewrite Hmetric.
Qed.

(** The machine loop body, like the exact one, writes the routing table
    only. *)
Lemma machine_process_one_frame route_data self :
  exists table,
    (Machine.process_one from_node current_time route_data self).2
    = set_routing_table (fun _ => table) self.
Proof.
  assert (Hid : exists table, self = set_routing_table (fun _ => table) self)
    by (exists (routing_table self); destruct self; reflexivity).
  destruct (missing_key route_data) as [key|] eqn:Hk.
  - rewrite (machine_process_one_missing _ _ _ Hk). exact Hid.
  - unfold missing_key in Hk.
    destruct (rd_destination route_data) as [d|] eqn:Hd; [|discriminate].
    destruct (rd_hop_count route_data) as [h|] eqn:Hh; [|discriminate].
    rewrite (machine_process_one_well_formed _ _ _ _ Hd Hh).
    repeat case_bool_decide; try exact Hid.
    destruct (Machine._calculate_metric _ _) as [m|e]; [|exact Hid].
    cbn [snd]. destruct (wins _ _ _); [|exact Hid].
    eexists. destruct self; reflexivity.
Qed.

(** Only the metric can make a well-formed announcement raise, and only
    with [OverflowError]. *)
Lemma machine_process_one_outcome route_data self :
  well_formed route_data ->
  (Machine.process_one from_node current_time route_data self).1
  = Returned tt
  \/ (Machine.process_one from_node current_time route_data self).1
     = Raised OverflowError.
Proof.
  intros [[d Hd] [h Hh]].
  rewrite (machine_process_one_well_formed _ _ _ _ Hd Hh).
  repeat case_bool_decide; try (left; reflexivity).
  unfold Machine._calculate_metric.
  destruct (pow_08 _); [left|right]; reflexivity.
Qed.

End MachineLoop.

(** An announced hop count of -3200 passes both guards and then makes the
    power overflow: the call raises and installs nothing. *)
Example overflowing_hop_count_raises :
  @Machine.process_route_announcement exact_float "node-A"
    [far_negative_announcement; node_a_announcement] 100%Q (init "ME" 7%Q)
  = (Raised OverflowError, init "ME" 7%Q).
Proof. vm_compute. reflexivity. Qed.



(** C2. For an announcement that passed the hop and self checks and whose
    metric was computed as [new_metric], the new route is installed
    exactly when the better-route rule holds (no entry, or strictly lower
    class, or equal class and strictly fewer hops). Installed means that
    [find_route] then returns a route to the destination via the sender
    with the new hop count, class and timestamp, every other destination
    keeping its entry; otherwise the whole engine state, and with it the
    existing entry and its [last_updated], is unchanged. Against an entry
    (GOOD, 3 hops), (GOOD, 2 hops) wins and (FAIR, 1 hop) loses. *)
Theorem better_route_rule_decides_install `{MachineFloat}
    (from_node : string) (current_time : Q) (route_data : RouteData)
    (dest : string) (announced : Z) (self : MeshNetwork)
    (new_metric : RouteMetric) :
  rd_destination route_data = Some dest ->
  rd_hop_count route_data = Some announced ->
  announced + 1 <= max_hop_count self ->
  dest <> local_node_id self ->
  Machine._calculate_metric (default 0%Q (rd_signal_strength route_data))
    (announced + 1) = Returned new_metric ->
  let result :=
    Machine.process_one from_node current_time route_data self in
  (better_route_rule (find_route dest self) new_metric (announced + 1) ->
   result.1 = Returned tt /\
   (exists route,
      find_route dest result.2 = Some route /\
      destination route = dest /\
      next_hop route = from_node /\
      hop_count route = announced + 1 /\
      metric route = new_metric /\
      last_updated route = current_time) /\
   (forall other,
      other <> dest -> find_route other result.2 = find_route other self))
  /\
  (~ better_route_rule (find_route dest self) new_metric (announced + 1) ->
   result = (Returned tt, self))
  /\
  (forall existing : RouteInfo,
     metric existing = GOOD -> hop_count existing = 3 ->
     _is_better_route GOOD 2 existing = true /\
     _is_better_route FAIR 1 existing = false).
Proof.
  intros Hd Hh Hmax Hself Hmetric result. unfold result, find_route.
  rewrite (machine_process_one_well_formed _ _ _ _ _ _ Hd Hh).
  rewrite bool_decide_eq_false_2 by lia.
  rewrite bool_decide_eq_false_2 by exact Hself.
  rewrite Hmetric.
  split; [|split].
  - intros Hrule. apply wins_spec in Hrule. rewrite Hrule.
    cbn [fst snd]. unfold set_routing_table. cbn [routing_table].
    split; [reflexivity|]. split.
    + eexists. rewrite lookup_insert_eq. split; [reflexivity|].
      repeat split.
    + intros other Hother. apply lookup_insert_ne. congruence.
  - intros Hrule. destruct (wins _ _ _) eqn:Hw; [|reflexivity].
    apply wins_spec in Hw. contradiction.
  - intros existing Hm Hc. unfold _is_better_route.
    rewrite Hm, Hc. split; reflexivity.
Qed.

Lemma better_route_rule_decides_install_witness :
  let result :=
    @Machine.process_one exact_float "node-A" 100%Q node_a_announcement
      (set_routing_table <["node-B" := existing_good_3]> (init "ME" 7%Q)) in
  result.1 = Returned tt /\
  (exists route,
     find_route "node-B" result.2 = Some route /\
     destination route = "node-B" /\
     next_hop route = "node-A" /\
     hop_count route = 1 + 1 /\
     metric route = GOOD /\
     last_updated route = 100%Q) /\
  (forall other,
     other <> "node-B" ->
     find_route other result.2
     = find_route other
         (set_routing_table <["node-B" := existing_good_3]>
            (init "ME" 7%Q))).
Proof.
  refine (proj1 (@better_route_rule_decides_install exact_float
                   "node-A" 100%Q node_a_announcement "node-B" 1
                   (set_routing_table <["node-B" := existing_good_3]>
                      (init "ME" 7%Q)) GOOD _ _ _ _ _) _).
  - reflexivity.
  - reflexivity.
  - vm_compute. discriminate.
  - vm_compute. discriminate.
  - vm_compute. reflexivity.
  - right. exists existing_good_3. split; [reflexivity|].
    right. split; reflexivity.
Defined.

(** C3, amended. An announcement that lacks the ['destination'] or the
    ['hop_count'] key is not skipped: when the loop reaches it,
    [process_route_announcement] raises [KeyError] for the first missing
    key to its caller. The announcements before it in the batch have been
    processed (their installs stay); it and the announcements after it
    are not. *)
Theorem missing_field_raises_key_error `{MachineFloat}
    (from_node : string) (current_time : Q)
    (pre post : list RouteData) (bad : RouteData) (key : string)
    (self : MeshNetwork) :
  (Machine.process_route_announcement from_node pre current_time self).1
  = Returned tt ->
  missing_key bad = Some key ->
  Machine.process_route_announcement from_node (pre ++ bad :: post)
    current_time self
  = (Raised (KeyError key),
     (Machine.process_route_announcement from_node pre current_time
        self).2).
Proof.
  unfold Machine.process_route_announcement. intros Hpre Hbad.
  rewrite for_each_append.
  destruct (for_each pre _ self) as [[[]|e] self']; [|discriminate].
  rewrite for_each_step, (machine_process_one_missing _ _ _ _ _ Hbad).
  reflexivity.
Qed.

Lemma missing_field_raises_key_error_witness :
  @Machine.process_route_announcement exact_float "node-A"
    ([node_a_announcement] ++ no_destination_announcement
       :: [five_hop_announcement]) 100%Q (init "ME" 7%Q)
  = (Raised (KeyError "destination"),
     (@Machine.process_route_announcement exact_float "node-A"
        [node_a_announcement] 100%Q (init "ME" 7%Q)).2).
Proof.
  apply (@missing_field_raises_key_error exact_float "node-A" 100%Q
           [node_a_announcement] [five_hop_announcement]
           no_destination_announcement "destination" (init "ME" 7%Q)).
  - vm_compute. reflexivity.
  - reflexivity.
Defined.

(** C9. An announcement without the ['signal_strength'] key is processed
    with signal 0.0; whenever the metric computation returns for it (it
    does for every announced hop count from 0 up,
    [machine_metric_returns], and raises [OverflowError] only when the
    power leaves the float range), the class is UNREACHABLE (5). If the
    announcement passes the hop and self checks and wins the better-route
    test (in particular when its destination has no entry), the class-5
    route is installed and [find_route] returns it. *)
Theorem missing_signal_installs_unreachable_route `{MachineFloat}
    (from_node : string) (current_time : Q) (route_data : RouteData)
    (dest : string) (announced : Z) (self : MeshNetwork)
    (new_metric : RouteMetric) :
  rd_destination route_data = Some dest ->
  rd_hop_count route_data = Some announced ->
  rd_signal_strength route_data = None ->
  announced + 1 <= max_hop_count self ->
  dest <> local_node_id self ->
  Machine._calculate_metric 0 (announced + 1) = Returned new_metric ->
  wins (find_route dest self) UNREACHABLE (announced + 1) = true ->
  new_metric = UNREACHABLE /\
  (Machine.process_route_announcement from_node [route_data] current_time
     self).1 = Returned tt /\
  find_route dest
    (Machine.process_route_announcement from_node [route_data] current_time
       self).2
  = Some {| destination := dest;
            next_hop := from_node;
            hop_count := announced + 1;
            metric := UNREACHABLE;
            last_updated := current_time;
            bandwidth_estimate := fl_lit 0.1 |}.
Proof.
  intros Hd Hh Hs Hmax Hself Hmetric Hwins.
  pose proof (machine_metric_zero_signal _ _ Hmetric) as ->.
  split; [reflexivity|].
  unfold Machine.process_route_announcement, find_route in *.
  rewrite for_each_step.
  rewrite (machine_process_one_well_formed _ _ _ _ _ _ Hd Hh), Hs.
  cbn [default from_option].
  rewrite bool_decide_eq_false_2 by lia.
  rewrite bool_decide_eq_false_2 by exact Hself.
  rewrite Hmetric, Hwins. cbn.
  split; [reflexivity|].
  rewrite lookup_insert_eq, machine_bandwidth_zero_signal. reflexivity.
Qed.

Lemma missing_signal_installs_unreachable_route_witness :
  UNREACHABLE = UNREACHABLE /\
  (@Machine.process_route_announcement exact_float "node-A"
     [no_signal_announcement] 100%Q (init "ME" 7%Q)).1 = Returned tt /\
  find_route "node-D"
    (@Machine.process_route_announcement exact_float "node-A"
       [no_signal_announcement] 100%Q (init "ME" 7%Q)).2
  = Some (mkRouteInfo "node-D" "node-A" (2 + 1) UNREACHABLE 100%Q
            (@fl_lit exact_float 0.1)).
Proof.
  apply (@missing_signal_installs_unreachable_route exact_float
           "node-A" 100%Q no_signal_announcement "node-D" 2
           (init "ME" 7%Q) UNREACHABLE).
  - reflexivity.
  - reflexivity.
  - reflexivity.
  - vm_compute. discriminate.
  - vm_compute. discriminate.
  - vm_compute. reflexivity.
  - reflexivity.
Defined.

(** ** A peer's announcements, processed over machine arithmetic *)

Section MachineRelay.

Context `{MachineFloat}.

Variables (from_node : string) (now : Q).

Lemma machine_batch_outcome (batch : list RouteData) self :
  Forall well_formed batch ->
  (for_each batch (Machine.process_one from_node now) self).1 = Returned tt
  \/ (for_each batch (Machine.process_one from_node now) self).1
     = Raised OverflowError.
Proof.
  intros Hall. revert self.
  induction Hall as [|x batch Hx _ IH]; intros self; [by left|].
  rewrite for_each_step.
  destruct (machine_process_one_outcome from_node now x self Hx) as [Hok|Hov];
    destruct (Machine.process_one from_node now x self) as [[[]|e] self'];
    cbn [fst] in *; try discriminate.
  - apply IH.
  - right. exact Hov.
Qed.

(** An announcement for another destination leaves [dest] alone. *)
Lemma machine_process_one_other route_data self dest :
  rd_destination route_data <> Some dest ->
  routing_table (Machine.process_one from_node now route_data self).2
    !! dest
  = routing_table self !! dest.
Proof.
  intros Hother.
  destruct (missing_key route_data) as [key|] eqn:Hk.
  { by rewrite (machine_process_one_missing _ _ _ _ _ Hk). }
  unfold missing_key in Hk.
  destruct (rd_destination route_data) as [d|] eqn:Hd; [|discriminate].
  destruct (rd_hop_count route_data) as [h|] eqn:Hh; [|discriminate].
  rewrite (machine_process_one_well_formed _ _ _ _ _ _ Hd Hh).
  repeat case_bool_decide; try reflexivity.
  destruct (Machine._calculate_metric _ _) as [m|e]; [|reflexivity].
  cbn [snd]. destruct (wins _ _ _); [|reflexivity].
  unfold set_routing_table. cbn [routing_table].
  apply lookup_insert_ne. congruence.
Qed.

Variables (route_data : RouteData) (dest : string) (announced : Z).
Hypothesis Hdest : rd_destination route_data = Some dest.
Hypothesis Hhops : rd_hop_count route_data = Some announced.

(** Once the route built from [route_data] is in the table, the rest of
    the batch, which names [dest] only through [route_data] itself, keeps
    it there. *)
Lemma machine_batch_keeps_installed (batch : list RouteData) self route :
  (forall x, x ∈ batch -> rd_destination x = Some dest -> x = route_data) ->
  Machine._calculate_metric (default 0%Q (rd_signal_strength route_data))
    (announced + 1) = Returned (metric route) ->
  hop_count route = announced + 1 ->
  routing_table self !! dest = Some route ->
  routing_table (for_each batch (Machine.process_one from_node now) self).2
    !! dest = Some route.
Proof.
  intros Honly Hmetric Hcount. revert self.
  induction batch as [|x batch IH]; intros self Hin; [exact Hin|].
  rewrite for_each_step.
  assert (Hnext : routing_table (Machine.process_one from_node now x self).2
                    !! dest = Some route).
  { destruct (decide (rd_destination x = Some dest)) as [Hx|Hx].
    - assert (x = route_data) as ->
        by (apply Honly; [apply list_elem_of_here|exact Hx]).
      rewrite (machine_process_one_well_formed _ _ _ _ _ _ Hdest Hhops).
      repeat case_bool_decide; try exact Hin.
      rewrite Hmetric, Hin. cbn [wins snd].
      destruct (_is_better_route _ _ route) eqn:Hb; [|exact Hin].
      apply is_better_route_spec in Hb. lia.
    - rewrite machine_process_one_other by exact Hx. exact Hin. }
  assert (Honly' : forall y, y ∈ batch -> rd_destination y = Some dest ->
                             y = route_data)
    by (intros y Hy; apply Honly; by apply list_elem_of_further).
  destruct (Machine.process_one from_node now x self) as [[[]|e] self'];
    [apply IH; [exact Honly'|exact Hnext]|exact Hnext].
Qed.

(** A batch that runs to its end and names [dest] only through
    [route_data] installs the route built from it when [dest] had no
    entry and the guards let it pass. *)
Lemma machine_batch_installs_named (batch : list RouteData) self :
  (for_each batch (Machine.process_one from_node now) self).1
  = Returned tt ->
  (forall x, x ∈ batch -> rd_destination x = Some dest -> x = route_data) ->
  route_data ∈ batch ->
  announced + 1 <= max_hop_count self ->
  dest <> local_node_id self ->
  routing_table self !! dest = None ->
  exists new_metric,
    Machine._calculate_metric (default 0%Q (rd_signal_strength route_data))
      (announced + 1) = Returned new_metric /\
    routing_table (for_each batch (Machine.process_one from_node now) self).2
      !! dest
    = Some {| destination := dest;
              next_hop := from_node;
              hop_count := announced + 1;
              metric := new_metric;
              last_updated := now;
              bandwidth_estimate :=
                Machine._estimate_bandwidth
                  (default 0%Q (rd_signal_strength route_data)) |}.
Proof.
  revert self.
  induction batch as [|x batch IH];
    intros self Hdone Honly Hmem Hmax Hlocal Hnone;
    [by apply elem_of_nil in Hmem|].
  rewrite for_each_step in Hdone |- *.
  assert (Honly' : forall y, y ∈ batch -> rd_destination y = Some dest ->
                             y = route_data)
    by (intros y Hy; apply Honly; by apply list_elem_of_further).
  destruct (decide (rd_destination x = Some dest)) as [Hx|Hx].
  - assert (x = route_data) as ->
      by (apply Honly; [apply list_elem_of_here|exact Hx]).
    rewrite (machine_process_one_well_formed _ _ _ _ _ _ Hdest Hhops)
      in Hdone |- *.
    rewrite bool_decide_eq_false_2 in Hdone |- * by lia.
    rewrite bool_decide_eq_false_2 in Hdone |- * by exact Hlocal.
    destruct (Machine._calculate_metric _ _) as [m|e] eqn:Hm;
      [|discriminate].
    exists m. split; [reflexivity|].
    rewrite Hnone. cbn [wins].
    apply machine_batch_keeps_installed; [exact Honly'|exact Hm|reflexivity|].
    unfold set_routing_table. cbn [routing_table]. apply lookup_insert_eq.
  - apply elem_of_cons in Hmem as [->|Hmem]; [congruence|].
    pose proof (machine_process_one_other x self dest Hx) as Hsame.
    destruct (machine_process_one_frame from_node now x self)
      as [table Hframe].
    destruct (Machine.process_one from_node now x self) as [[[]|e] self'];
      [|discriminate].
    cbn [snd] in Hsame, Hframe. subst self'.
    apply IH; [exact Hdone|exact Honly'|exact Hmem|exact Hmax|exact Hlocal|].
    rewrite Hsame. exact Hnone.
Qed.

End MachineRelay.

(** X14. A batch built by a peer's [get_route_announcements] has every key
    the processor subscripts: processing it never raises [KeyError]. The
    call returns normally, or raises the [OverflowError] of a metric
    computation. *)
Theorem peer_announcements_never_raise_key_error `{MachineFloat}
    (clock : string -> Q) (sender receiver : MeshNetwork)
    (from_node : string) (now : Q) :
  (Machine.process_route_announcement from_node
     (as_route_data <$> get_route_announcements clock sender) now
     receiver).1 = Returned tt
  \/
  (Machine.process_route_announcement from_node
     (as_route_data <$> get_route_announcements clock sender) now
     receiver).1 = Raised OverflowError.
Proof.
  apply machine_batch_outcome. apply Forall_fmap, Forall_forall.
  intros ann _. split; eexists; reflexivity.
Qed.

(** X16. Relay round trip. If the sender holds a fresh entry for [dest],
    the receiver has none, is not [dest] itself and allows one more hop,
    and the receiver's processing of the sender's announcement list runs
    to its end, then the receiver routes [dest] through the sender with
    one hop more. The class of the new route is the one the metric
    computation returns for the sender's bandwidth estimate, which travels
    in the signal-strength slot. *)
Theorem relayed_route_round_trip `{MachineFloat}
    (clock : string -> Q) (sender receiver : MeshNetwork)
    (from_node : string) (now : Q) (dest : string) (route : RouteInfo) :
  find_route dest sender = Some route ->
  (clock dest - last_updated route <= route_update_interval sender * 2)%Q ->
  find_route dest receiver = None ->
  dest <> local_node_id receiver ->
  hop_count route + 1 <= max_hop_count receiver ->
  let result :=
    Machine.process_route_announcement from_node
      (as_route_data <$> get_route_announcements clock sender) now
      receiver in
  result.1 = Returned tt ->
  exists new_metric,
    Machine._calculate_metric (bandwidth_estimate route)
      (hop_count route + 1) = Returned new_metric /\
    find_route dest result.2
    = Some {| destination := dest;
              next_hop := from_node;
              hop_count := hop_count route + 1;
              metric := new_metric;
              last_updated := now;
              bandwidth_estimate :=
                Machine._estimate_bandwidth (bandwidth_estimate route) |}
    /\ get_next_hop dest result.2 = Some from_node.
Proof.
  intros Hroute Hfresh Hnone Hlocal Hmax result Hdone.
  unfold find_route in Hroute, Hnone |- *.
  pose (ann := mkAnnouncement dest (hop_count route) (value (metric route))
                 (bandwidth_estimate route) (last_updated route)).
  assert (Hin : ann ∈ get_route_announcements clock sender).
  { apply elem_of_get_route_announcements. exists dest, route.
    split; [exact Hroute|]. apply announce_Some.
    split; [apply Qle_not_lt, Hfresh|reflexivity]. }
  destruct (machine_batch_installs_named from_node now (as_route_data ann)
              dest (hop_count route) eq_refl eq_refl
              (as_route_data <$> get_route_announcements clock sender)
              receiver) as (m & Hm & Hinstalled).
  - exact Hdone.
  - intros x Hx Hd.
    apply list_elem_of_fmap in Hx as (a & -> & Ha).
    apply elem_of_get_route_announcements in Ha
      as (d' & r' & Hr' & [_ ->]%announce_Some).
    cbn in Hd. injection Hd as ->.
    rewrite Hroute in Hr'. injection Hr' as <-. reflexivity.
  - apply list_elem_of_fmap. by exists ann.
  - exact Hmax.
  - exact Hlocal.
  - exact Hnone.
  - exists m. split; [exact Hm|].
    unfold result, Machine.process_route_announcement.
    split; [exact Hinstalled|].
    unfold get_next_hop, find_route. rewrite Hinstalled. reflexivity.
Qed.

Lemma relayed_route_round_trip_witness :
  let result :=
    @Machine.process_route_announcement exact_float "REL-1"
      (as_route_data <$>
         get_route_announcements (fun _ => 95%Q)
           (add_neighbor "REL-1" "node-A" 0.3%Q 90%Q 90%Q
              (init "OTHER" 7%Q)))
      100%Q (init "ME" 7%Q) in
  exists new_metric,
    @Machine._calculate_metric exact_float
      (bandwidth_estimate
         (mkRouteInfo "node-A" "node-A" 1 (_calculate_metric 0.3%Q 1)
            90%Q (_estimate_bandwidth 0.3%Q)))
      (1 + 1) = Returned new_metric /\
    find_route "node-A" result.2
    = Some {| destination := "node-A";
              next_hop := "REL-1";
              hop_count := 1 + 1;
              metric := new_metric;
              last_updated := 100%Q;
              bandwidth_estimate :=
                @Machine._estimate_bandwidth exact_float
                  (bandwidth_estimate
                     (mkRouteInfo "node-A" "node-A" 1
                        (_calculate_metric 0.3%Q 1) 90%Q
                        (_estimate_bandwidth 0.3%Q))) |}
    /\ get_next_hop "node-A" result.2 = Some "REL-1".
Proof.
  refine (@relayed_route_round_trip exact_float (fun _ => 95%Q)
            (add_neighbor "REL-1" "node-A" 0.3%Q 90%Q 90%Q
               (init "OTHER" 7%Q))
            (init "ME" 7%Q) "REL-1" 100%Q "node-A"
            (mkRouteInfo "node-A" "node-A" 1 (_calculate_metric 0.3%Q 1)
               90%Q (_estimate_bandwidth 0.3%Q)) _ _ _ _ _ _).
  - reflexivity.
  - discriminate.
  - reflexivity.
  - vm_compute. discriminate.
  - vm_compute. discriminate.
  - vm_compute. reflexivity.
Defined.
